(** * mzm_generation: Kitaev-chain Hamiltonians, BdG matrices, task keys and
      count estimators

    A shallow embedding of [mzm-generation/mzm_generation.py].

    Conventions of the embedding.
    - Python [int] is [Z].
    - In the two estimators, [compute_measure_edge_correlation] and
      [compute_measure_hamiltonian], Python [float] and numpy [complex128]
      are IEEE 754 binary64 ([F64], [C128]): a value is a finite double, an
      infinity or nan, and every operation returns its exact result rounded
      to the nearest double, ties to even, with gradual underflow and
      overflow to infinity.  The two zeros are not told apart (they compare
      equal in Python).  Converting an [int] to [float] rounds in the same
      way; Python raises [OverflowError] where the rounded value would
      overflow (from [2^1024 - 2^970] on), the embedding has an infinity
      there, and the statements about returned values are made for counts
      that convert.  Python's own [float / 0] raises [ZeroDivisionError].
    - The entries of the Kitaev and Bogoliubov-de Gennes matrices, the float
      fields of a task and the amplitudes of a state are finite doubles, held
      as the rationals they are ([Qc], canonical fractions with Leibniz
      equality, and [Num.C] for a complex entry).  [kitaev_hamiltonian] and
      [bdg_hamiltonian] apply to them negations, conjugations, products with
      a factor 0, 1 or -1 and sums with an operand 0, all exact on doubles;
      [expectation] is written with the sums and products of the rationals.
    - A Python exception is a [Raise e] result; values are [Ok v].
    - A two-dimensional numpy array is the list of its rows.
    - A [Dict[str, int]] of counts is the list of its items in iteration
      order. *)

From Stdlib Require Import String Ascii.
From Stdlib Require Import ZArith QArith Qcanon Qround Qpower.
From Stdlib Require Import List Bool Lia Lqa Arith.
From Stdlib Require Import DecimalString DecimalZ Permutation.
Import ListNotations.

Set Implicit Arguments.

Close Scope Qc_scope.
Close Scope Q_scope.
Close Scope Z_scope.
Open Scope nat_scope.

(** ** Python results *)

Inductive exn : Type :=
| ValueError
| IndexError
| ZeroDivisionError
| CircuitError.

Inductive result (A : Type) : Type :=
| Ok (a : A)
| Raise (e : exn).

Arguments Ok {A} a.
Arguments Raise {A} e.

Definition bind {A B : Type} (r : result A) (k : A -> result B) : result B :=
  match r with
  | Ok a => k a
  | Raise e => Raise e
  end.

Declare Scope py_scope.
Delimit Scope py_scope with py.
Notation "x <- r ;; k" := (bind r (fun x => k))
  (at level 61, r at next level, right associativity) : py_scope.

(** ** Numbers *)

Module Num.

(** the integer [z] among the rationals *)
Definition of_int (z : Z) : Qc := Q2Qc (inject_Z z).

(** A finite double [m * 2^e] and a decimal literal read exactly. *)
Definition frac (n : Z) (d : positive) : Qc := Q2Qc (n # d).

(** an entry of a complex128 array, its two parts held as rationals *)
Record C : Type := mkC { re : Qc; im : Qc }.

Definition C0 : C := mkC 0%Qc 0%Qc.
Definition of_real (a : Qc) : C := mkC a 0%Qc.
Definition Cadd (a b : C) : C := mkC (re a + re b)%Qc (im a + im b)%Qc.
Definition Cmul (a b : C) : C :=
  mkC (re a * re b - im a * im b)%Qc (re a * im b + im a * re b)%Qc.
Definition Copp (a : C) : C := mkC (- re a)%Qc (- im a)%Qc.
Definition conj (a : C) : C := mkC (re a) (- im a)%Qc.

End Num.

(** ** binary64 and complex128 *)

Module F64.

(** a double: a finite value, held as the rational it is, an infinity with
    its sign, or nan *)
Inductive t : Type :=
| Fin (q : Qc)
| Inf (negative : bool)
| NaN.

(** [2 ** k] *)
Definition pow2 (k : Z) : Q := (2 ^ k)%Q.

(** for [0 < x], the exponent [e] with [2^e <= x < 2^(e+1)] *)
Definition ilog2 (x : Q) : Z :=
  let k := (Z.log2 (Qnum x) - Z.log2 (Zpos (Qden x)))%Z in
  if Qle_bool (pow2 k) x then k else (k - 1)%Z.

(** the integer nearest to [x], the even one of two that are as near *)
Definition nearest_even (x : Q) : Z :=
  let f := Qfloor x in
  match (x - inject_Z f ?= 1 # 2)%Q with
  | Lt => f
  | Gt => (f + 1)%Z
  | Eq => if Z.even f then f else (f + 1)%Z
  end.

(** the double nearest to [x], for [0 < x]: 53 significant bits above the
    exponent -1022, multiples of [2^-1074] below it, and infinity when the
    rounded value reaches [2^1024] *)
Definition round_pos (x : Q) : t :=
  let e := Z.max (ilog2 x) (-1022) in
  let ulp := pow2 (e - 52) in
  let m := nearest_even (x / ulp) in
  let v := (inject_Z m * ulp)%Q in
  if Qle_bool (pow2 1024) v then Inf false else Fin (Q2Qc v).

(** [-x] *)
Definition neg (x : t) : t :=
  match x with
  | Fin q => Fin (- q)%Qc
  | Inf s => Inf (negb s)
  | NaN => NaN
  end.

(** the double nearest to the rational [q] *)
Definition round (q : Qc) : t :=
  match (Qnum q ?= 0)%Z with
  | Eq => Fin 0%Qc
  | Gt => round_pos q
  | Lt => neg (round_pos (- q)%Qc)
  end.

(** [float(z)] for a Python int [z], as the arithmetic operators convert
    an int operand *)
Definition of_Z (z : Z) : t := round (Num.of_int z).

Definition is_neg (q : Qc) : bool := (Qnum q <? 0)%Z.

Definition is_zero (q : Qc) : bool := (Qnum q =? 0)%Z.

(** [x + y] *)
Definition add (x y : t) : t :=
  match x, y with
  | Fin a, Fin b => round (a + b)%Qc
  | Fin _, Inf s => Inf s
  | Inf s, Fin _ => Inf s
  | Inf s, Inf s' => if Bool.eqb s s' then Inf s else NaN
  | _, _ => NaN
  end.

(** [x - y] *)
Definition sub (x y : t) : t := add x (neg y).

(** [x * y] *)
Definition mul (x y : t) : t :=
  match x, y with
  | Fin a, Fin b => round (a * b)%Qc
  | Fin a, Inf s => if is_zero a then NaN else Inf (xorb (is_neg a) s)
  | Inf s, Fin b => if is_zero b then NaN else Inf (xorb s (is_neg b))
  | Inf s, Inf s' => Inf (xorb s s')
  | _, _ => NaN
  end.

(** the IEEE quotient [x / y]; Python itself reaches it with a non-zero
    divisor only *)
Definition div (x y : t) : t :=
  match x, y with
  | Fin a, Fin b =>
      if is_zero b then (if is_zero a then NaN else Inf (is_neg a))
      else round (a / b)%Qc
  | Fin _, Inf _ => Fin 0%Qc
  | Inf s, Fin b => Inf (xorb s (is_neg b))
  | _, _ => NaN
  end.

(** [a / b] where [a] is a Python float and [b] a Python int: Python
    raises [ZeroDivisionError] on a zero divisor *)
Definition py_div (a : t) (b : Z) : result t :=
  if (b =? 0)%Z then Raise ZeroDivisionError
  else Ok (div a (of_Z b)).

End F64.

Module C128.

(** complex128: two doubles *)
Record t : Type := mk { re : F64.t; im : F64.t }.

Definition zero : t := mk (F64.Fin 0%Qc) (F64.Fin 0%Qc).

(** a real number read as a complex one *)
Definition of_real (a : F64.t) : t := mk a (F64.Fin 0%Qc).

Definition add (a b : t) : t :=
  mk (F64.add (re a) (re b)) (F64.add (im a) (im b)).

Definition mul (a b : t) : t :=
  mk (F64.sub (F64.mul (re a) (re b)) (F64.mul (im a) (im b)))
     (F64.add (F64.mul (re a) (im b)) (F64.mul (im a) (re b))).

End C128.

(** ** numpy arrays of rank two, as lists of rows *)

Module Np.

Definition matrix (A : Type) : Type := list (list A).

Definition map2 {A B D : Type} (f : A -> B -> D) (l : list A) (l' : list B)
  : list D :=
  map (fun p => f (fst p) (snd p)) (combine l l').

(** elementwise binary operation on arrays of one shape *)
Definition ew2 {A B D : Type} (f : A -> B -> D) (M : matrix A) (N : matrix B)
  : matrix D :=
  map2 (map2 f) M N.

(** elementwise unary operation (and scalar broadcasting) *)
Definition ew1 {A B : Type} (f : A -> B) (M : matrix A) : matrix B :=
  map (map f) M.

Section Generic.
Context {A : Type}.

Definition table (n m : nat) (f : nat -> nat -> A) : matrix A :=
  map (fun i => map (f i) (seq 0 m)) (seq 0 n).

Definition shape (n m : nat) (M : matrix A) : Prop :=
  length M = n /\ Forall (fun r => length r = m) M.

Definition nrows (M : matrix A) : nat := length M.
Definition ncols (M : matrix A) : nat :=
  match M with [] => 0%nat | r :: _ => length r end.

Variable d : A.

Definition entry (M : matrix A) (i j : nat) : A := nth j (nth i M []) d.

(** [M.T] *)
Definition transpose (M : matrix A) : matrix A :=
  table (ncols M) (nrows M) (fun i j => entry M j i).

(** [np.block([[a, b], [c, d]])]: the blocks of a row are joined along
    the last axis, the rows of blocks along the first; numpy raises
    [ValueError] when the sizes along the other axis disagree. *)
Definition hstack (M N : matrix A) : result (matrix A) :=
  if (nrows M =? nrows N)%nat then Ok (map2 (@app A) M N)
  else Raise ValueError.

Definition vstack (M N : matrix A) : result (matrix A) :=
  if (ncols M =? ncols N)%nat then Ok (M ++ N)
  else Raise ValueError.

Definition block (a b c e : matrix A) : result (matrix A) :=
  (top <- hstack a b ;;
   bot <- hstack c e ;;
   vstack top bot)%py.

End Generic.

(** [np.eye(n)] *)
Definition eye (n : nat) : matrix Qc :=
  table n n (fun i j => if (i =? j)%nat then 1%Qc else 0%Qc).

(** [np.ones(m)] *)
Definition ones (m : nat) : list Qc := repeat 1%Qc m.

(** [np.diag(v, k)] for a vector [v]: the square array of size
    [len(v) + |k|] with [v] on its [k]-th diagonal. *)
Definition diag (v : list Qc) (k : Z) : matrix Qc :=
  let size := (length v + Z.abs_nat k)%nat in
  table size size
    (fun i j =>
       if (Z.of_nat j - Z.of_nat i =? k)%Z then nth (Nat.min i j) v 0%Qc
       else 0%Qc).

End Np.

Import Np.

(** ** The Hamiltonian builder *)

Record QuadraticHamiltonian (A : Type) : Type := mkQuadraticHamiltonian {
  hermitian_part : matrix A;
  antisymmetric_part : matrix A
}.

(** [kitaev_hamiltonian(n_modes, tunneling, superconducting,
    chemical_potential)].  [np.ones(n_modes - 1)] rejects a negative
    length, so [n_modes < 1] raises [ValueError]. *)
Definition kitaev_hamiltonian (n_modes : Z)
    (tunneling superconducting chemical_potential : Qc)
  : result (QuadraticHamiltonian Qc) :=
  if (n_modes <? 1)%Z then Raise ValueError
  else
    let eye := Np.eye (Z.to_nat n_modes) in
    let upper_diag := Np.diag (Np.ones (Z.to_nat (n_modes - 1))) 1 in
    let lower_diag := Np.diag (Np.ones (Z.to_nat (n_modes - 1))) (-1) in
    let hermitian_part :=
      ew2 Qcplus
        (ew1 (Qcmult (- tunneling)) (ew2 Qcplus upper_diag lower_diag))
        (ew1 (Qcmult chemical_potential) eye) in
    let antisymmetric_part :=
      ew1 (Qcmult superconducting) (ew2 Qcminus upper_diag lower_diag) in
    Ok (mkQuadraticHamiltonian hermitian_part antisymmetric_part).

(** [bdg_hamiltonian(hamiltonian)] *)
Definition bdg_hamiltonian (hamiltonian : QuadraticHamiltonian Num.C)
  : result (matrix Num.C) :=
  Np.block
    (ew1 Num.Copp (ew1 Num.conj (hermitian_part hamiltonian)))
    (ew1 Num.Copp (ew1 Num.conj (antisymmetric_part hamiltonian)))
    (antisymmetric_part hamiltonian)
    (hermitian_part hamiltonian).

(** ** Python string building used by the task key *)

Module Py.

Local Open Scope string_scope.

(** [str(z)] for an int *)
Definition str_int (z : Z) : string := NilEmpty.string_of_int (Z.to_int z).

(** [", ".join(repr(a) for a in l)] *)
Fixpoint join_items (l : list Z) : string :=
  match l with
  | [] => ""
  | [a] => str_int a
  | a :: l' => str_int a ++ ", " ++ join_items l'
  end.

(** [str(t)] for a tuple of ints: ["()"], ["(a,)"], ["(a, b, c)"] *)
Definition str_tuple (l : list Z) : string :=
  match l with
  | [a] => "(" ++ str_int a ++ ",)"
  | _ => "(" ++ join_items l ++ ")"
  end.

(** nearest integer to [n / d] for [0 <= n], ties to even *)
Definition round_half_even (n : Z) (d : positive) : Z :=
  let q := (n / Zpos d)%Z in
  let r := (n mod Zpos d)%Z in
  match (2 * r ?= Zpos d)%Z with
  | Lt => q
  | Gt => (q + 1)%Z
  | Eq => if Z.even q then q else (q + 1)%Z
  end.

(** [f"{v:.2f}"] for a finite float [v]: the sign of [v], then its
    magnitude correctly rounded to two decimals. *)
Definition format_2f (v : Qc) : string :=
  let h := round_half_even (100 * Z.abs (Qnum v)) (Qden v) in
  (if (Qnum v <? 0)%Z then "-" else "")
    ++ str_int (h / 100) ++ "."
    ++ str_int ((h / 10) mod 10) ++ str_int (h mod 10).

Definition startswith_sep (s : string) : bool :=
  match s with
  | String c _ => Ascii.eqb c "/"
  | EmptyString => false
  end.

Fixpoint endswith_sep (s : string) : bool :=
  match s with
  | EmptyString => false
  | String c EmptyString => Ascii.eqb c "/"
  | String _ s' => endswith_sep s'
  end.

(** one round of the loop of [posixpath.join] *)
Definition join_step (path b : string) : string :=
  if startswith_sep b then b
  else if (String.eqb path "" || endswith_sep path)%bool then path ++ b
  else path ++ "/" ++ b.

(** [os.path.join(a, *p)] on a POSIX system *)
Definition path_join (a : string) (p : list string) : string :=
  fold_left join_step p a.

End Py.

(** ** The task descriptor *)

Record KitaevHamiltonianTask : Type := mkTask {
  experiment_id : string;
  n_modes : Z;
  tunneling : Qc;
  superconducting : Qc;
  chemical_potential : Qc;
  occupied_orbitals : list Z;
  shots : list Z
}.

(** the property [KitaevHamiltonianTask.filename] *)
Definition filename (self : KitaevHamiltonianTask) : string :=
  Py.path_join (experiment_id self)
    [ ("n" ++ Py.str_int (n_modes self)
        ++ "t" ++ Py.format_2f (tunneling self)
        ++ "_Delta" ++ Py.format_2f (superconducting self)
        ++ "_mu" ++ Py.format_2f (chemical_potential self))%string;
      ("shots" ++ Py.str_tuple (shots self))%string;
      Py.str_tuple (occupied_orbitals self) ].

(** [KitaevHamiltonianTask.__hash__].  [hash_key s] stands for Python's
    built-in [hash((KitaevHamiltonianTask, s))]; the class object is the
    same in every call, so the built-in is a function of the string. *)
Definition task_hash (hash_key : string -> Z) (self : KitaevHamiltonianTask)
  : Z :=
  hash_key (filename self).

(** ** The estimators *)

Definition Counts : Type := list (string * Z).

(** [sum(counts.values())] *)
Definition total (counts : Counts) : Z :=
  fold_left Z.add (map snd counts) 0%Z.

(** [sum(1 for b in bitstring if b == "1")] *)
Fixpoint ones_in (bitstring : string) : nat :=
  match bitstring with
  | EmptyString => 0
  | String b rest => (if Ascii.eqb b "1" then 1 else 0) + ones_in rest
  end.

(** [(-1) ** parity] *)
Definition sign_pow (parity : nat) : Z := ((-1) ^ Z.of_nat parity)%Z.

(** a [for] loop whose body may raise *)
Fixpoint for_each {S A : Type} (body : S -> A -> result S) (l : list A)
    (s : S) : result S :=
  match l with
  | [] => Ok s
  | a :: l' => (s' <- body s a ;; for_each body l' s')%py
  end.

(** [compute_measure_edge_correlation(counts)]; [np.real] returns a float
    as it is *)
Definition compute_measure_edge_correlation (counts : Counts)
  : result F64.t :=
  let shots := total counts in
  let correlation_expectation :=
    fold_left
      (fun acc item =>
         F64.sub acc (F64.of_Z (sign_pow (ones_in (fst item)) * snd item)))
      counts (F64.Fin 0%Qc) in
  (correlation_expectation <- F64.py_div correlation_expectation shots ;;
   Ok correlation_expectation)%py.

Module Pauli.
(** a Pauli term: its boolean masks [z] and [x] *)
Record t : Type := mk { z : list bool; x : list bool }.
End Pauli.

Record SparsePauliOp : Type := mkSparsePauliOp {
  paulis : list Pauli.t;
  coeffs : list C128.t
}.

(** [np.any(mask)] *)
Definition np_any (mask : list bool) : bool := existsb (fun b => b) mask.

(** [sum(1 for i, b in enumerate(bitstring) if pauli_string[i] and b == "1")],
    [i] being the index reached; indexing past the mask raises
    [IndexError]. *)
Fixpoint masked_parity (pauli_string : list bool) (i : nat)
    (bitstring : string) : result nat :=
  match bitstring with
  | EmptyString => Ok 0
  | String b rest =>
      match nth_error pauli_string i with
      | None => Raise IndexError
      | Some p =>
          (r <- masked_parity pauli_string (S i) rest ;;
           Ok ((if (p && Ascii.eqb b "1")%bool then 1 else 0) + r))%py
      end
  end.

(** the inner loop over [counts.items()] and the division by [shots] *)
Definition term_expectation (counts : Counts) (shots : Z)
    (pauli_string : list bool) : result F64.t :=
  (term_expectation <-
     for_each
       (fun acc item =>
          parity <- masked_parity pauli_string 0 (fst item) ;;
          Ok (F64.add acc (F64.of_Z (sign_pow parity * snd item))))
       counts (F64.Fin 0%Qc) ;;
   F64.py_div term_expectation shots)%py.

(** the body of the loop over [zip(hamiltonian.paulis, hamiltonian.coeffs)];
    the product of a complex128 coefficient and a float is the complex
    product with the float read as a complex number *)
Definition hamiltonian_body (counts_z counts_x : Counts) (shots_z shots_x : Z)
    (hamiltonian_expectation : C128.t) (tc : Pauli.t * C128.t)
  : result C128.t :=
  let term := fst tc in
  let coeff := snd tc in
  if np_any (Pauli.z term) then
    (term_expectation <- term_expectation counts_z shots_z (Pauli.z term) ;;
     Ok (C128.add hamiltonian_expectation
           (C128.mul coeff (C128.of_real term_expectation))))%py
  else if np_any (Pauli.x term) then
    (term_expectation <- term_expectation counts_x shots_x (Pauli.x term) ;;
     Ok (C128.add hamiltonian_expectation
           (C128.mul coeff (C128.of_real term_expectation))))%py
  else Ok (C128.add hamiltonian_expectation coeff).

(** [compute_measure_hamiltonian(counts_z, counts_x, hamiltonian)] *)
Definition compute_measure_hamiltonian (counts_z counts_x : Counts)
    (hamiltonian : SparsePauliOp) : result F64.t :=
  let shots_z := total counts_z in
  let shots_x := total counts_x in
  (hamiltonian_expectation <-
     for_each (hamiltonian_body counts_z counts_x shots_z shots_x)
       (combine (paulis hamiltonian) (coeffs hamiltonian)) C128.zero ;;
   Ok (C128.re hamiltonian_expectation))%py.

(** ** The state expectation *)

(** the inner product of two vectors of one length, summed in index order *)
Definition Cdot (u v : list Num.C) : Num.C :=
  fold_left Num.Cadd (map2 Num.Cmul u v) Num.C0.

(** [operator @ state] for a rank-two [operator] and a rank-one [state]:
    numpy raises [ValueError] unless every row is as long as [state] *)
Definition matmul_vec (operator : matrix Num.C) (state : list Num.C)
  : result (list Num.C) :=
  if forallb (fun row => length row =? length state) operator
  then Ok (map (fun row => Cdot row state) operator)
  else Raise ValueError.

(** [np.vdot(a, b)]: the first argument is conjugated; numpy raises
    [ValueError] unless the two hold as many elements *)
Definition vdot (a b : list Num.C) : result Num.C :=
  if length a =? length b
  then Ok (fold_left Num.Cadd
             (map2 (fun x y => Num.Cmul (Num.conj x) y) a b) Num.C0)
  else Raise ValueError.

(** [expectation(operator, state)] *)
Definition expectation (operator : matrix Num.C) (state : list Num.C)
  : result Num.C :=
  (image <- matmul_vec operator state ;;
   vdot state image)%py.

(** a [float64] Hamiltonian read as a [complex128] one, value by value *)
Definition astype_complex (hamiltonian : QuadraticHamiltonian Qc)
  : QuadraticHamiltonian Num.C :=
  mkQuadraticHamiltonian
    (ew1 Num.of_real (hermitian_part hamiltonian))
    (ew1 Num.of_real (antisymmetric_part hamiltonian)).

(** ** The result files *)

(** the local [filename] of [save] and of [load]:
    [os.path.join(base_dir, f"{task.filename}.json")] *)
Definition json_path (task : KitaevHamiltonianTask) (base_dir : string)
  : string :=
  Py.path_join base_dir [(filename task ++ ".json")%string].

(** ** The measurement adapters *)

(** [l[i]] for a Python list, negative indices counting from the end *)
Definition py_index {A : Type} (l : list A) (i : Z) : result A :=
  let n := Z.of_nat (length l) in
  let k := if (i <? 0)%Z then (i + n)%Z else i in
  if ((k <? 0) || (n <=? k))%Z then Raise IndexError
  else
    match nth_error l (Z.to_nat k) with
    | Some a => Ok a
    | None => Raise IndexError
    end.

Module Circuit.

(** what a circuit holds, as the sequence of the calls made on it: [prior]
    stands for an instruction of the state-preparation circuit, the others
    for the calls of this file, [rx_half_pi q] being [rx(np.pi / 2, q)] *)
Inductive instruction (Q P : Type) : Type :=
| prior (p : P)
| h (qargs : list Q)
| rx_half_pi (q : Q)
| measure_all.

Arguments prior {Q P} p.
Arguments h {Q P} qargs.
Arguments rx_half_pi {Q P} q.
Arguments measure_all {Q P}.

Record t (Q P : Type) : Type := mk {
  qubits : list Q;
  data : list (instruction Q P)
}.

(** a method call on the copy made by [circuit.copy()]: the instruction is
    appended *)
Definition append {Q P : Type} (circuit : t Q P) (i : instruction Q P)
  : t Q P :=
  mk (qubits circuit) (data circuit ++ [i]).

End Circuit.

(** [measure_z(circuit)] *)
Definition measure_z {Q P : Type} (circuit : Circuit.t Q P) : Circuit.t Q P :=
  Circuit.append circuit Circuit.measure_all.

(** [measure_x(circuit)]: [circuit.h(circuit.qubits)] raises
    [CircuitError] when the list of qubits is empty *)
Definition measure_x {Q P : Type} (circuit : Circuit.t Q P)
  : result (Circuit.t Q P) :=
  match Circuit.qubits circuit with
  | [] => Raise CircuitError
  | _ :: _ =>
      let circuit :=
        Circuit.append circuit (Circuit.h (Circuit.qubits circuit)) in
      Ok (Circuit.append circuit Circuit.measure_all)
  end.

(** [measure_edge_correlation(circuit)] *)
Definition measure_edge_correlation {Q P : Type} (circuit : Circuit.t Q P)
  : result (Circuit.t Q P) :=
  (first_qubit <- py_index (Circuit.qubits circuit) 0 ;;
   let circuit := Circuit.append circuit (Circuit.rx_half_pi first_qubit) in
   last_qubit <- py_index (Circuit.qubits circuit) (-1) ;;
   let circuit := Circuit.append circuit (Circuit.rx_half_pi last_qubit) in
   Ok (Circuit.append circuit Circuit.measure_all))%py.

(** * Definitions used to state the properties *)

(** the super-diagonal and sub-diagonal ones matrices and the identity,
    entry by entry *)
Definition superdiag (i j : nat) : Qc := if j =? S i then 1%Qc else 0%Qc.

Definition subdiag (i j : nat) : Qc := if i =? S j then 1%Qc else 0%Qc.

Definition kronecker (i j : nat) : Qc := if i =? j then 1%Qc else 0%Qc.

(** the array [bdg_hamiltonian] assembles, entry by entry, from the entries
    [h] and [a] of its two parts *)
Definition bdg_entry (n : nat) (h a : nat -> nat -> Num.C) (i j : nat)
  : Num.C :=
  if i <? n then
    if j <? n then Num.Copp (Num.conj (h i j))
    else Num.Copp (Num.conj (a i (j - n)))
  else
    if j <? n then a (i - n) j
    else h (i - n) (j - n).

(** [M.conj().T] *)
Definition conj_transpose (M : matrix Num.C) : matrix Num.C :=
  transpose Num.C0 (ew1 Num.conj M).

(** the sum of a list of integers *)
Definition Zsum (l : list Z) : Z := fold_right Z.add 0%Z l.

(** the summands [-(-1)^parity * count], one per bitstring *)
Definition edge_terms (counts : Counts) : list Z :=
  map (fun item => (- (sign_pow (ones_in (fst item)) * snd item))%Z) counts.


(** every count multiplied by [k] *)
Definition scale_counts (k : Z) (counts : Counts) : Counts :=
  map (fun item => (fst item, (snd item * k)%Z)) counts.

(** the number of positions flagged by the mask at which the bit is ['1'] *)
Definition flagged_ones (mask : list bool) (bitstring : string) : nat :=
  length
    (filter (fun p => (fst p && Ascii.eqb (snd p) "1")%bool)
       (combine mask (list_ascii_of_string bitstring))).

(** the sum of the absolute values of the counts: the total, when no count
    is negative *)
Definition magnitude (counts : Counts) : Z :=
  Zsum (map (fun item => Z.abs (snd item)) counts).

(** the running double sum of a list of integers, from [0.0], left to
    right, each integer converted as it is added *)
Definition float_sum (l : list Z) : F64.t :=
  fold_left (fun acc w => F64.add acc (F64.of_Z w)) l (F64.Fin 0%Qc).

(** the bit statistic of one mask: the running sum of [(-1)^parity * count]
    over the observed bitstrings, divided by the number of shots *)
Definition bit_statistic (counts : Counts) (mask : list bool) : F64.t :=
  F64.div
    (float_sum (map (fun item =>
                       (sign_pow (flagged_ones mask (fst item)) * snd item)%Z)
                  counts))
    (F64.of_Z (Zsum (map snd counts))).

(** what one term contributes: a term with a Z factor is read off
    [counts_z] through its Z mask; otherwise a term with an X factor is read
    off [counts_x] through its X mask; otherwise the coefficient itself *)
Definition dispatch_value (counts_z counts_x : Counts)
    (tc : Pauli.t * C128.t) : C128.t :=
  if np_any (Pauli.z (fst tc)) then
    C128.mul (snd tc)
      (C128.of_real (bit_statistic counts_z (Pauli.z (fst tc))))
  else if np_any (Pauli.x (fst tc)) then
    C128.mul (snd tc)
      (C128.of_real (bit_statistic counts_x (Pauli.x (fst tc))))
  else snd tc.

(** the running complex128 sum of a list, from 0, left to right *)
Definition complex_sum (l : list C128.t) : C128.t :=
  fold_left C128.add l C128.zero.

(** a finite double, neither an infinity nor nan *)
Definition finite (x : F64.t) : Prop :=
  match x with
  | F64.Fin _ => True
  | _ => False
  end.

(** every count of the mapping, and their total, converts to a finite
    double: [float(count)] raises no [OverflowError] *)
Definition converts (counts : Counts) : Prop :=
  Forall (fun item => finite (F64.of_Z (snd item))) counts
  /\ finite (F64.of_Z (Zsum (map snd counts))).

(** a value that rounding leaves unchanged *)
Definition is_double (x : F64.t) : Prop :=
  match x with
  | F64.Fin q => F64.round q = F64.Fin q
  | _ => True
  end.

(** two doubles of equal value *)
Definition same_double (x y : F64.t) : bool :=
  match x, y with
  | F64.Fin a, F64.Fin b => Qeq_bool a b
  | F64.Inf s, F64.Inf s' => Bool.eqb s s'
  | F64.NaN, F64.NaN => true
  | _, _ => false
  end.

(** the sum of a list of complex numbers *)
Definition Csum (l : list Num.C) : Num.C := fold_right Num.Cadd Num.C0 l.

(** every bitstring of [counts] has at most [nq] characters *)
Definition fits (nq : nat) (counts : Counts) : Prop :=
  Forall (fun item => String.length (fst item) <= nq) counts.

(** a term with a Z or an X factor *)
Definition nonidentity (tc : Pauli.t * C128.t) : Prop :=
  (np_any (Pauli.z (fst tc)) || np_any (Pauli.x (fst tc)))%bool = true.

(** a non-empty path that does not end with the separator *)
Definition ends_plain (s : string) : Prop :=
  s <> EmptyString /\ Py.endswith_sep s = false.

(** the first component with its separator, as [os.path.join] leaves it *)
Definition prefix_of (a : string) : string :=
  if (String.eqb a "" || Py.endswith_sep a)%bool then a
  else (a ++ "/")%string.

(** the three components joined after [experiment_id] *)
Definition params_part (self : KitaevHamiltonianTask) : string :=
  ("n" ++ Py.str_int (n_modes self)
    ++ "t" ++ Py.format_2f (tunneling self)
    ++ "_Delta" ++ Py.format_2f (superconducting self)
    ++ "_mu" ++ Py.format_2f (chemical_potential self))%string.

(** a character that can occur in a printed integer: neither [","] nor
    [")"] *)
Definition item_char (c : ascii) : bool :=
  (negb (Ascii.eqb c ",") && negb (Ascii.eqb c ")"))%bool.

(** every character of [s] can occur in a printed integer *)
Fixpoint all_item (s : string) : bool :=
  match s with
  | EmptyString => true
  | String c s' => (item_char c && all_item s')%bool
  end.

(** [join_items l] closed by its bracket *)
Definition closed_items (l : list Z) : string :=
  (Py.join_items l ++ ")")%string.

(** [dataclasses.replace(self, field=...)], field by field *)
Definition set_n_modes (self : KitaevHamiltonianTask) (n : Z) :=
  mkTask (experiment_id self) n (tunneling self) (superconducting self)
    (chemical_potential self) (occupied_orbitals self) (shots self).

Definition set_tunneling (self : KitaevHamiltonianTask) (v : Qc) :=
  mkTask (experiment_id self) (n_modes self) v (superconducting self)
    (chemical_potential self) (occupied_orbitals self) (shots self).

Definition set_superconducting (self : KitaevHamiltonianTask) (v : Qc) :=
  mkTask (experiment_id self) (n_modes self) (tunneling self) v
    (chemical_potential self) (occupied_orbitals self) (shots self).

Definition set_chemical_potential (self : KitaevHamiltonianTask) (v : Qc) :=
  mkTask (experiment_id self) (n_modes self) (tunneling self)
    (superconducting self) v (occupied_orbitals self) (shots self).

Definition set_occupied_orbitals (self : KitaevHamiltonianTask)
    (o : list Z) :=
  mkTask (experiment_id self) (n_modes self) (tunneling self)
    (superconducting self) (chemical_potential self) o (shots self).

Definition set_shots (self : KitaevHamiltonianTask) (s : list Z) :=
  mkTask (experiment_id self) (n_modes self) (tunneling self)
    (superconducting self) (chemical_potential self)
    (occupied_orbitals self) s.

(** the doubles nearest to 1.001 and 1.004, 0.001 and 0.004 *)
Definition double_1_001 : Qc := Num.frac 2254051613498933 2251799813685248.

Definition double_1_004 : Qc := Num.frac 2260807012939989 2251799813685248.

Definition double_0_001 : Qc := Num.frac 1152921504606847 1152921504606846976.

Definition double_0_004 : Qc := Num.frac 1152921504606847 288230376151711744.

Definition sample_task : KitaevHamiltonianTask :=
  mkTask "kitaev" 4 double_1_001 (Num.frac 1 2) double_0_001
    [0%Z; 1%Z] [10000%Z].

(** a stand-in for the built-in hash, for evaluation *)
Definition sample_hash (s : string) : Z := Z.of_nat (String.length s).

(** the [k]-th basis state of [n] amplitudes *)
Definition basis_state (n k : nat) : list Num.C :=
  map (fun i => if i =? k then Num.of_real 1%Qc else Num.C0) (seq 0 n).

(** the shots whose bitstring holds an odd, or an even, number of ['1'] *)
Definition odd_shots (counts : Counts) : Z :=
  Zsum (map snd (filter (fun item => Nat.odd (ones_in (fst item))) counts)).

Definition even_shots (counts : Counts) : Z :=
  Zsum (map snd (filter (fun item => Nat.even (ones_in (fst item))) counts)).


(** [dataclasses.replace(self, experiment_id=...)] *)
Definition set_experiment_id (self : KitaevHamiltonianTask) (a : string) :=
  mkTask a (n_modes self) (tunneling self) (superconducting self)
    (chemical_potential self) (occupied_orbitals self) (shots self).

(** two first components that [os.path.join] cannot tell apart: equal, or
    one is the other followed by one separator *)
Definition same_directory (a b : string) : Prop :=
  a = b
  \/ (ends_plain a /\ b = (a ++ "/")%string)
  \/ (ends_plain b /\ a = (b ++ "/")%string).

(** every character of [s] belongs to the alphabet [al] *)
Definition overb (al : list ascii) (s : string) : bool :=
  forallb (fun c => existsb (Ascii.eqb c) al) (list_ascii_of_string s).

(** the characters of a printed number, of a printed tuple, and of the
    parameter component of the filename *)
Definition decimal_alphabet : list ascii :=
  list_ascii_of_string ".-0123456789".

Definition tuple_alphabet : list ascii :=
  list_ascii_of_string "shots(), .-0123456789".

Definition params_alphabet : list ascii :=
  list_ascii_of_string "nt_Deltamu.-0123456789".

(** * Properties *)

(** ** The model evaluated on small inputs *)

Example filename_sample :
  filename sample_task
  = "kitaev/n4t1.00_Delta0.50_mu0.00/shots(10000,)/(0, 1)"%string.
Proof. reflexivity. Qed.

Example format_2f_ties_to_even :
  Py.format_2f (Num.frac 1 8) = "0.12"%string
  /\ Py.format_2f (Num.frac 3 8) = "0.38"%string
  /\ Py.format_2f (Num.frac (-1) 1000) = "-0.00"%string.
Proof. repeat split. Qed.

Example str_tuple_shapes :
  Py.str_tuple [] = "()"%string
  /\ Py.str_tuple [(-3)%Z] = "(-3,)"%string
  /\ Py.str_tuple [1%Z; 22%Z; 0%Z] = "(1, 22, 0)"%string.
Proof. repeat split. Qed.

Example path_join_separators :
  Py.path_join "a/" ["b"; "c"]%string = "a/b/c"%string
  /\ Py.path_join "" ["b"]%string = "b"%string
  /\ Py.path_join "a" ["/b"; "c"]%string = "/b/c"%string.
Proof. repeat split. Qed.

Example masked_parity_past_the_mask :
  masked_parity [true; false] 0 "110" = Raise IndexError
  /\ masked_parity [true; false; true] 0 "110" = Ok 1.
Proof. split; reflexivity. Qed.

(** ** Arrays as tables of their entries *)

Section Tables.
Context {A : Type}.
Variable d : A.

Lemma table_shape (n m : nat) (f : nat -> nat -> A) :
  shape n m (table n m f).
Proof.
  unfold shape, table; split.
  - now rewrite length_map, length_seq.
  - apply Forall_forall; intros r Hr.
    apply in_map_iff in Hr as [i [<- _]].
    now rewrite length_map, length_seq.
Qed.

Lemma entry_table (n m : nat) (f : nat -> nat -> A) (i j : nat) :
  i < n -> j < m -> entry d (table n m f) i j = f i j.
Proof.
  intros Hi Hj; unfold entry, table.
  rewrite nth_indep with (d' := (fun k => map (f k) (seq 0 m)) 0)
    by (rewrite length_map, length_seq; lia).
  rewrite (map_nth (fun k => map (f k) (seq 0 m))), seq_nth by lia.
  rewrite nth_indep with (d' := f (0 + i) 0)
    by (rewrite length_map, length_seq; lia).
  now rewrite map_nth, seq_nth by lia.
Qed.

Lemma table_ext (n m : nat) (f g : nat -> nat -> A) :
  (forall i j, i < n -> j < m -> f i j = g i j) ->
  table n m f = table n m g.
Proof.
  intros H; unfold table.
  apply map_ext_in; intros i Hi; apply in_seq in Hi.
  apply map_ext_in; intros j Hj; apply in_seq in Hj.
  apply H; lia.
Qed.

Lemma shape_row (n m : nat) (M : matrix A) (i : nat) :
  shape n m M -> i < n -> length (nth i M []) = m.
Proof.
  intros [Hn Hm] Hi.
  rewrite Forall_forall in Hm; apply Hm, nth_In; lia.
Qed.

Lemma shape_table (n m : nat) (M : matrix A) :
  shape n m M -> M = table n m (entry d M).
Proof.
  intros HM.
  pose proof (table_shape n m (entry d M)) as HT.
  apply nth_ext with (d := []) (d' := []).
  - now rewrite (proj1 HM), (proj1 HT).
  - intros i Hi; rewrite (proj1 HM) in Hi.
    apply nth_ext with (d := d) (d' := d).
    + now rewrite (shape_row HM Hi), (shape_row HT Hi).
    + intros j Hj; rewrite (shape_row HM Hi) in Hj.
      symmetry; now apply entry_table.
Qed.

Lemma ew1_table {B : Type} (g : A -> B) (n m : nat) (f : nat -> nat -> A) :
  ew1 g (table n m f) = table n m (fun i j => g (f i j)).
Proof.
  unfold ew1, table; rewrite map_map.
  apply map_ext; intros i; now rewrite map_map.
Qed.

Lemma map2_map {B D E : Type} (g : A -> B -> D) (f : E -> A) (f' : E -> B)
    (l : list E) :
  map2 g (map f l) (map f' l) = map (fun k => g (f k) (f' k)) l.
Proof.
  unfold map2; induction l as [|a l IH]; simpl; [reflexivity|].
  now rewrite IH.
Qed.

End Tables.

Lemma ew2_table {A B D : Type} (g : A -> B -> D) (n m : nat)
    (f : nat -> nat -> A) (f' : nat -> nat -> B) :
  ew2 g (table n m f) (table n m f')
  = table n m (fun i j => g (f i j) (f' i j)).
Proof.
  unfold ew2, table; rewrite map2_map.
  apply map_ext; intros i; apply map2_map.
Qed.

(** ** The Kitaev matrices *)

Lemma nth_ones (k m : nat) : k < m -> nth k (Np.ones m) 0%Qc = 1%Qc.
Proof.
  intros Hk; unfold Np.ones.
  rewrite nth_indep with (d' := 1%Qc) by (rewrite repeat_length; lia).
  apply nth_repeat.
Qed.

Lemma diag_ones_upper (n : nat) :
  Np.diag (Np.ones n) 1 = table (S n) (S n) superdiag.
Proof.
  unfold Np.diag, Np.ones; rewrite repeat_length.
  replace (n + Z.abs_nat 1) with (S n) by (simpl; lia).
  apply table_ext; intros i j Hi Hj; unfold superdiag.
  destruct (Nat.eqb_spec j (S i)) as [->|Hne].
  - replace (Z.of_nat (S i) - Z.of_nat i =? 1)%Z with true
      by (symmetry; apply Z.eqb_eq; lia).
    rewrite Nat.min_l by lia; apply nth_ones; lia.
  - replace (Z.of_nat j - Z.of_nat i =? 1)%Z with false
      by (symmetry; apply Z.eqb_neq; lia).
    reflexivity.
Qed.

Lemma diag_ones_lower (n : nat) :
  Np.diag (Np.ones n) (-1) = table (S n) (S n) subdiag.
Proof.
  unfold Np.diag, Np.ones; rewrite repeat_length.
  replace (n + Z.abs_nat (-1)) with (S n) by (simpl; lia).
  apply table_ext; intros i j Hi Hj; unfold subdiag.
  destruct (Nat.eqb_spec i (S j)) as [->|Hne].
  - replace (Z.of_nat j - Z.of_nat (S j) =? -1)%Z with true
      by (symmetry; apply Z.eqb_eq; lia).
    rewrite Nat.min_r by lia; apply nth_ones; lia.
  - replace (Z.of_nat j - Z.of_nat i =? -1)%Z with false
      by (symmetry; apply Z.eqb_neq; lia).
    reflexivity.
Qed.

Lemma Qc_matrix_eq (M N : matrix Qc) :
  map (map this) M = map (map this) N -> M = N.
Proof.
  revert N; induction M as [|r M IH]; intros [|s N] H; simpl in H;
    try discriminate; [reflexivity|].
  injection H as Hr HM; f_equal; [|now apply IH].
  clear -Hr; revert s Hr; induction r as [|a r IH]; intros [|b s] H;
    simpl in H; try discriminate; [reflexivity|].
  injection H as Ha Hr; f_equal; [now apply Qc_decomp|now apply IH].
Qed.

(** C1. For [n_modes > 0], [kitaev_hamiltonian] returns a pair of
    [n_modes x n_modes] arrays: the hermitian part is [-t] times the sum of
    the super-diagonal and sub-diagonal ones matrices plus [mu] times the
    identity, the antisymmetric part is [Delta] times their difference.  For
    [n_modes = 4], [t = 1], [Delta = 1/2], [mu = 0] the two arrays are the
    tridiagonal ones written out below. *)
Theorem kitaev_hamiltonian_parts :
  forall (n : Z) (t Delta mu : Qc),
    (0 < n)%Z ->
    (exists H A : matrix Qc,
        kitaev_hamiltonian n t Delta mu = Ok (mkQuadraticHamiltonian H A)
        /\ shape (Z.to_nat n) (Z.to_nat n) H
        /\ shape (Z.to_nat n) (Z.to_nat n) A
        /\ (forall i j, i < Z.to_nat n -> j < Z.to_nat n ->
              entry 0%Qc H i j
              = (- t * (superdiag i j + subdiag i j) + mu * kronecker i j)%Qc)
        /\ (forall i j, i < Z.to_nat n -> j < Z.to_nat n ->
              entry 0%Qc A i j
              = (Delta * (superdiag i j - subdiag i j))%Qc))
    /\ kitaev_hamiltonian 4 1%Qc (Num.frac 1 2) 0%Qc
       = Ok (mkQuadraticHamiltonian
               [ [ 0; -(1); 0; 0 ];
                 [ -(1); 0; -(1); 0 ];
                 [ 0; -(1); 0; -(1) ];
                 [ 0; 0; -(1); 0 ] ]%Qc
               [ [ 0; Num.frac 1 2; 0; 0 ];
                 [ Num.frac (-1) 2; 0; Num.frac 1 2; 0 ];
                 [ 0; Num.frac (-1) 2; 0; Num.frac 1 2 ];
                 [ 0; 0; Num.frac (-1) 2; 0 ] ]%Qc).
Proof.
  intros n t Delta mu Hn; split.
  - unfold kitaev_hamiltonian.
    replace (n <? 1)%Z with false by (symmetry; apply Z.ltb_ge; lia).
    replace (Z.to_nat n) with (S (Z.to_nat (n - 1))) by lia.
    set (k := Z.to_nat (n - 1)).
    rewrite diag_ones_upper, diag_ones_lower; unfold Np.eye.
    rewrite !ew2_table, !ew1_table, !ew2_table.
    eexists; eexists; split; [reflexivity|].
    repeat split; try apply table_shape.
    + intros i j Hi Hj; now rewrite entry_table.
    + intros i j Hi Hj; now rewrite entry_table.
  - vm_compute; f_equal; f_equal; apply Qc_matrix_eq; reflexivity.
Qed.

Lemma kitaev_hamiltonian_parts_witness :
  (0 < 3)%Z /\
  (exists H A : matrix Qc,
      kitaev_hamiltonian 3 (Num.frac 3 2) (Num.frac 1 4) (Num.frac (-2) 1)
      = Ok (mkQuadraticHamiltonian H A)
      /\ shape 3 3 H /\ shape 3 3 A).
Proof.
  split; [lia|].
  destruct (proj1 (@kitaev_hamiltonian_parts 3 (Num.frac 3 2) (Num.frac 1 4)
                     (Num.frac (-2) 1) ltac:(lia)))
    as [H [A [E [HH [HA _]]]]].
  exists H, A; split; [exact E | split; [exact HH | exact HA]].
Defined.

(** ** The BdG matrix *)

Lemma map_seq_from {A : Type} (g : nat -> A) (s m : nat) :
  map g (seq s m) = map (fun j => g (s + j)) (seq 0 m).
Proof.
  revert g s; induction m as [|m IH]; intros g s; simpl; [reflexivity|].
  rewrite Nat.add_0_r; f_equal.
  rewrite (IH g (S s)), (IH (fun j => g (s + j)) 1).
  apply map_ext; intros j; f_equal; lia.
Qed.

Lemma map_seq_app {A : Type} (f g : nat -> A) (n m : nat) :
  map f (seq 0 n) ++ map g (seq 0 m)
  = map (fun j => if j <? n then f j else g (j - n)) (seq 0 (n + m)).
Proof.
  rewrite seq_app, map_app; f_equal.
  - apply map_ext_in; intros j Hj; apply in_seq in Hj.
    now replace (j <? n) with true by (symmetry; apply Nat.ltb_lt; lia).
  - simpl; rewrite (map_seq_from _ n m).
    apply map_ext; intros j.
    replace (n + j <? n) with false by (symmetry; apply Nat.ltb_ge; lia).
    f_equal; lia.
Qed.

Lemma ncols_table {A : Type} (n m : nat) (f : nat -> nat -> A) :
  0 < n -> ncols (table n m f) = m.
Proof.
  destruct n as [|n]; [lia|]; intros _.
  unfold table; simpl; now rewrite length_map, length_seq.
Qed.

Lemma hstack_table {A : Type} (n m m' : nat) (f g : nat -> nat -> A) :
  hstack (table n m f) (table n m' g)
  = Ok (table n (m + m') (fun i j => if j <? m then f i j else g i (j - m))).
Proof.
  unfold hstack, nrows.
  rewrite (proj1 (table_shape n m f)), (proj1 (table_shape n m' g)).
  rewrite Nat.eqb_refl; f_equal.
  unfold table; rewrite map2_map.
  apply map_ext; intros i; apply map_seq_app.
Qed.

Lemma vstack_table {A : Type} (n n' m : nat) (f g : nat -> nat -> A) :
  n = n' ->
  vstack (table n m f) (table n' m g)
  = Ok (table (n + n') m (fun i j => if i <? n then f i j else g (i - n) j)).
Proof.
  intros <-; unfold vstack.
  replace (ncols (table n m f) =? ncols (table n m g)) with true.
  - f_equal; unfold table; rewrite map_seq_app.
    apply map_ext; intros i; now destruct (i <? n).
  - symmetry; apply Nat.eqb_eq.
    destruct n as [|n]; [reflexivity|].
    rewrite (@ncols_table A (S n) m f), (@ncols_table A (S n) m g);
      [reflexivity | lia | lia].
Qed.

Lemma bdg_hamiltonian_of_tables (n : nat) (h a : nat -> nat -> Num.C) :
  bdg_hamiltonian (mkQuadraticHamiltonian (table n n h) (table n n a))
  = Ok (table (n + n) (n + n) (bdg_entry n h a)).
Proof.
  unfold bdg_hamiltonian, Np.block.
  cbn [hermitian_part antisymmetric_part].
  rewrite !ew1_table, !hstack_table; cbn [bind].
  rewrite vstack_table by reflexivity; reflexivity.
Qed.

Lemma bdg_hamiltonian_table (n : nat) (H A : matrix Num.C) :
  shape n n H -> shape n n A ->
  bdg_hamiltonian (mkQuadraticHamiltonian H A)
  = Ok (table (n + n) (n + n)
          (bdg_entry n (entry Num.C0 H) (entry Num.C0 A))).
Proof.
  intros HH HA.
  rewrite <- bdg_hamiltonian_of_tables.
  now rewrite <- (shape_table Num.C0 HH), <- (shape_table Num.C0 HA).
Qed.

(** C2. For [n x n] parts [H] and [A], [bdg_hamiltonian] returns the
    [2n x 2n] array whose top row of blocks is [-conj(H)], [-conj(A)] and
    whose bottom row is [A], [H]: negation and conjugation on the top row
    only. *)
Theorem bdg_hamiltonian_blocks :
  forall (n : nat) (H A : matrix Num.C),
    shape n n H -> shape n n A ->
    exists M : matrix Num.C,
      bdg_hamiltonian (mkQuadraticHamiltonian H A) = Ok M
      /\ shape (2 * n) (2 * n) M
      /\ forall i j, i < n -> j < n ->
           entry Num.C0 M i j = Num.Copp (Num.conj (entry Num.C0 H i j))
           /\ entry Num.C0 M i (n + j)
              = Num.Copp (Num.conj (entry Num.C0 A i j))
           /\ entry Num.C0 M (n + i) j = entry Num.C0 A i j
           /\ entry Num.C0 M (n + i) (n + j) = entry Num.C0 H i j.
Proof.
  intros n H A HH HA.
  exists (table (n + n) (n + n)
            (bdg_entry n (entry Num.C0 H) (entry Num.C0 A))).
  split; [now apply bdg_hamiltonian_table|].
  replace (2 * n) with (n + n) by lia.
  split; [apply table_shape|].
  intros i j Hi Hj.
  rewrite !entry_table by lia; unfold bdg_entry.
  replace (i <? n) with true by (symmetry; apply Nat.ltb_lt; lia).
  replace (j <? n) with true by (symmetry; apply Nat.ltb_lt; lia).
  replace (n + i <? n) with false by (symmetry; apply Nat.ltb_ge; lia).
  replace (n + j <? n) with false by (symmetry; apply Nat.ltb_ge; lia).
  replace (n + i - n) with i by lia.
  replace (n + j - n) with j by lia.
  repeat split; reflexivity.
Qed.

Lemma bdg_hamiltonian_blocks_witness :
  let H := [ [Num.mkC 1%Qc 0%Qc; Num.mkC 0%Qc (Num.frac 1 2)];
             [Num.mkC 0%Qc (Num.frac (-1) 2); Num.mkC 1%Qc 0%Qc] ] in
  let A := [ [Num.C0; Num.mkC (Num.frac 1 3) 0%Qc];
             [Num.mkC (Num.frac (-1) 3) 0%Qc; Num.C0] ] in
  shape 2 2 H /\ shape 2 2 A /\
  exists M : matrix Num.C,
    bdg_hamiltonian (mkQuadraticHamiltonian H A) = Ok M /\ shape 4 4 M.
Proof.
  intros H A.
  assert (HH : shape 2 2 H) by (split; [reflexivity | repeat constructor]).
  assert (HA : shape 2 2 A) by (split; [reflexivity | repeat constructor]).
  split; [exact HH | split; [exact HA|]].
  destruct (bdg_hamiltonian_blocks HH HA) as [M [E [HM _]]].
  exists M; split; [exact E | exact HM].
Defined.

Lemma conj_conj (c : Num.C) : Num.conj (Num.conj c) = c.
Proof.
  destruct c as [a b]; unfold Num.conj; simpl.
  now rewrite Qcopp_involutive.
Qed.

Lemma conj_Copp (c : Num.C) : Num.conj (Num.Copp c) = Num.Copp (Num.conj c).
Proof. reflexivity. Qed.

Lemma transpose_table {A : Type} (d : A) (n : nat) (f : nat -> nat -> A) :
  transpose d (table n n f) = table n n (fun i j => f j i).
Proof.
  unfold transpose, nrows.
  rewrite (proj1 (table_shape n n f)).
  destruct n as [|n]; [reflexivity|].
  rewrite ncols_table by lia.
  apply table_ext; intros i j Hi Hj; now apply entry_table.
Qed.

Lemma conj_transpose_table (n : nat) (f : nat -> nat -> Num.C) :
  conj_transpose (table n n f) = table n n (fun i j => Num.conj (f j i)).
Proof. unfold conj_transpose; now rewrite ew1_table, transpose_table. Qed.

Lemma hermitian_entries (n : nat) (H : matrix Num.C) :
  shape n n H -> H = conj_transpose H ->
  forall i j, i < n -> j < n ->
    entry Num.C0 H i j = Num.conj (entry Num.C0 H j i).
Proof.
  intros HH E i j Hi Hj.
  pose proof (f_equal conj_transpose (shape_table Num.C0 HH)) as E'.
  rewrite conj_transpose_table, <- E in E'.
  rewrite E' at 1; now rewrite entry_table.
Qed.

Lemma antisymmetric_entries (n : nat) (A : matrix Num.C) :
  shape n n A -> transpose Num.C0 A = ew1 Num.Copp A ->
  forall i j, i < n -> j < n ->
    entry Num.C0 A j i = Num.Copp (entry Num.C0 A i j).
Proof.
  intros HA E i j Hi Hj.
  pose proof (f_equal (transpose Num.C0) (shape_table Num.C0 HA)) as E1.
  pose proof (f_equal (ew1 Num.Copp) (shape_table Num.C0 HA)) as E2.
  rewrite transpose_table in E1; rewrite ew1_table in E2.
  rewrite E1, E2 in E.
  apply (f_equal (fun M => entry Num.C0 M i j)) in E.
  now rewrite !entry_table in E.
Qed.

(** C6. When [H] equals its conjugate transpose and [A] has [A.T = -A],
    the array returned by [bdg_hamiltonian] equals its own conjugate
    transpose. *)
Theorem bdg_hamiltonian_hermitian :
  forall (n : nat) (H A : matrix Num.C),
    shape n n H -> shape n n A ->
    H = conj_transpose H ->
    transpose Num.C0 A = ew1 Num.Copp A ->
    exists M : matrix Num.C,
      bdg_hamiltonian (mkQuadraticHamiltonian H A) = Ok M
      /\ M = conj_transpose M.
Proof.
  intros n H A HH HA EH EA.
  pose proof (hermitian_entries HH EH) as Hh.
  pose proof (antisymmetric_entries HA EA) as Ha.
  eexists; split; [exact (bdg_hamiltonian_table HH HA)|].
  rewrite conj_transpose_table.
  apply table_ext; intros i j Hi Hj; unfold bdg_entry.
  destruct (Nat.ltb_spec i n) as [Li|Li];
    destruct (Nat.ltb_spec j n) as [Lj|Lj].
  - rewrite (Hh j i) by lia.
    now rewrite conj_Copp, !conj_conj.
  - rewrite (Ha i (j - n)) by lia.
    now rewrite conj_Copp.
  - rewrite (Ha j (i - n)) by lia.
    now rewrite conj_Copp, conj_conj.
  - apply Hh; lia.
Qed.

Lemma bdg_hamiltonian_hermitian_witness :
  let H := [ [Num.mkC 1%Qc 0%Qc; Num.mkC 0%Qc (Num.frac 1 2)];
             [Num.mkC 0%Qc (Num.frac (-1) 2); Num.mkC 1%Qc 0%Qc] ] in
  let A := [ [Num.C0; Num.mkC (Num.frac 1 3) 0%Qc];
             [Num.mkC (Num.frac (-1) 3) 0%Qc; Num.C0] ] in
  exists M : matrix Num.C,
    bdg_hamiltonian (mkQuadraticHamiltonian H A) = Ok M
    /\ M = conj_transpose M.
Proof.
  intros H A.
  assert (HH : shape 2 2 H) by (split; [reflexivity | repeat constructor]).
  assert (HA : shape 2 2 A) by (split; [reflexivity | repeat constructor]).
  apply (bdg_hamiltonian_hermitian HH HA).
  - unfold H, conj_transpose, transpose, ew1, table, entry; simpl.
    repeat (f_equal; try (f_equal; apply Qc_is_canon; reflexivity)).
  - unfold A, transpose, ew1, table, entry; simpl.
    repeat (f_equal; try (f_equal; apply Qc_is_canon; reflexivity)).
Defined.

(** ** Integers among the rationals *)

Lemma of_int_add (a b : Z) :
  Num.of_int (a + b) = (Num.of_int a + Num.of_int b)%Qc.
Proof.
  unfold Num.of_int, Qcplus; apply Q2Qc_eq_iff; unfold Q2Qc; cbn [this].
  rewrite !Qred_correct, inject_Z_plus; reflexivity.
Qed.

Lemma of_int_mul (a b : Z) :
  Num.of_int (a * b) = (Num.of_int a * Num.of_int b)%Qc.
Proof.
  unfold Num.of_int, Qcmult; apply Q2Qc_eq_iff; unfold Q2Qc; cbn [this].
  rewrite !Qred_correct, inject_Z_mult; reflexivity.
Qed.

Lemma of_int_opp (a : Z) : Num.of_int (- a) = (- Num.of_int a)%Qc.
Proof.
  unfold Num.of_int, Qcopp; apply Q2Qc_eq_iff; unfold Q2Qc; cbn [this].
  rewrite !Qred_correct, inject_Z_opp; reflexivity.
Qed.

Lemma of_int_le (a b : Z) : (a <= b)%Z -> (Num.of_int a <= Num.of_int b)%Qc.
Proof.
  intros H; unfold Qcle, Num.of_int, Q2Qc; cbn [this].
  rewrite !Qred_correct, <- Zle_Qle; exact H.
Qed.

Lemma of_int_lt (a b : Z) : (a < b)%Z -> (Num.of_int a < Num.of_int b)%Qc.
Proof.
  intros H; unfold Qclt, Num.of_int, Q2Qc; cbn [this].
  rewrite !Qred_correct, <- Zlt_Qlt; exact H.
Qed.

Lemma of_int_neq0 (a : Z) : a <> 0%Z -> Num.of_int a <> 0%Qc.
Proof.
  intros H E; apply H.
  unfold Num.of_int in E; apply Q2Qc_eq_iff in E.
  now apply (inject_Z_injective a 0).
Qed.

Lemma of_int_0 : Num.of_int 0 = 0%Qc.
Proof. reflexivity. Qed.

(** ** Rounding to the nearest double *)

Module Rounding.
Import F64.

(** powers of two *)

Lemma pow2_pos (k : Z) : (0 < pow2 k)%Q.
Proof. apply Qpower_0_lt; reflexivity. Qed.

Lemma pow2_add (a b : Z) : (pow2 (a + b) == pow2 a * pow2 b)%Q.
Proof. apply Qpower_plus; discriminate. Qed.

Lemma pow2_Z (k : Z) : (0 <= k)%Z -> (inject_Z (2 ^ k) == pow2 k)%Q.
Proof.
  intros H; unfold pow2; rewrite (Zpower_Qpower 2 k H); reflexivity.
Qed.

Lemma pow2_lt (a b : Z) : (a < b)%Z -> (pow2 a < pow2 b)%Q.
Proof. intros H; apply Qpower_lt_compat_l; [exact H | reflexivity]. Qed.

Lemma pow2_le (a b : Z) : (a <= b)%Z -> (pow2 a <= pow2 b)%Q.
Proof. intros H; apply Qpower_le_compat_l; [exact H | discriminate]. Qed.

Lemma pow2_lt_inv (a b : Z) : (pow2 a < pow2 b)%Q -> (a < b)%Z.
Proof.
  intros H; apply Qpower_lt_compat_l_inv with (q := 2%Q);
    [exact H | reflexivity].
Qed.

Lemma pow2_0 : (pow2 0 == 1)%Q.
Proof. reflexivity. Qed.

Lemma pow2_cancel (a : Z) : (pow2 a * pow2 (- a) == 1)%Q.
Proof.
  rewrite <- pow2_add; replace (a + - a)%Z with 0%Z by lia; reflexivity.
Qed.

(** the nearest integer *)

Lemma nearest_even_floor (x : Q) :
  (Qfloor x <= nearest_even x <= Qfloor x + 1)%Z.
Proof.
  unfold nearest_even.
  destruct (x - inject_Z (Qfloor x) ?= 1 # 2)%Q;
    try destruct (Z.even (Qfloor x)); lia.
Qed.

Lemma nearest_even_lower (x : Q) (L : Z) :
  (inject_Z L <= x)%Q -> (L <= nearest_even x)%Z.
Proof.
  intros H; apply Qfloor_resp_le in H; rewrite Qfloor_Z in H.
  pose proof (nearest_even_floor x); lia.
Qed.

Lemma nearest_even_upper (x : Q) (U : Z) :
  (x <= inject_Z U)%Q -> (nearest_even x <= U)%Z.
Proof.
  intros H; pose proof (Qfloor_resp_le _ _ H) as HF; rewrite Qfloor_Z in HF.
  assert (up : (0 < x - inject_Z (Qfloor x))%Q -> (Qfloor x + 1 <= U)%Z).
  { intros P.
    assert (Qfloor x < U)%Z; [| lia].
    rewrite Zlt_Qlt; lra. }
  unfold nearest_even.
  destruct (Qcompare_spec (x - inject_Z (Qfloor x)) (1 # 2)) as [E | E | E].
  - destruct (Z.even (Qfloor x)); [exact HF |]; apply up; lra.
  - exact HF.
  - apply up; lra.
Qed.

Lemma nearest_even_exact (x : Q) (k : Z) :
  (x == inject_Z k)%Q -> nearest_even x = k.
Proof.
  intros H; assert (F : Qfloor x = k) by (rewrite H; apply Qfloor_Z).
  unfold nearest_even; rewrite F.
  destruct (Qcompare_spec (x - inject_Z k) (1 # 2)) as [E | E | E];
    [lra | reflexivity | lra].
Qed.

(** the exponent *)

Lemma Q_as_fraction (x : Q) :
  (x * inject_Z (Zpos (Qden x)) == inject_Z (Qnum x))%Q.
Proof. destruct x as [n d]; unfold Qeq, Qmult, inject_Z; simpl; lia. Qed.

Lemma Zlog2_pow2 (n : Z) :
  (0 < n)%Z ->
  (pow2 (Z.log2 n) <= inject_Z n /\ inject_Z n < pow2 (Z.log2 n + 1))%Q.
Proof.
  intros H; destruct (Z.log2_spec n H) as [A B].
  pose proof (Z.log2_nonneg n) as P.
  split.
  - rewrite <- pow2_Z by exact P; rewrite <- Zle_Qle; exact A.
  - rewrite <- pow2_Z by lia; rewrite <- Zlt_Qlt.
    replace (Z.log2 n + 1)%Z with (Z.succ (Z.log2 n)) by lia; exact B.
Qed.

Lemma Qnum_pos (x : Q) : (0 < x)%Q -> (0 < Qnum x)%Z.
Proof. destruct x as [n d]; unfold Qlt; simpl; lia. Qed.

Lemma ilog2_spec (x : Q) :
  (0 < x)%Q -> (pow2 (ilog2 x) <= x /\ x < pow2 (ilog2 x + 1))%Q.
Proof.
  intros H.
  destruct (Zlog2_pow2 (Qnum_pos H)) as [NA NB].
  destruct (@Zlog2_pow2 (Zpos (Qden x)) eq_refl) as [DA DB].
  pose proof (Q_as_fraction x) as F.
  set (a := Z.log2 (Qnum x)) in *; set (b := Z.log2 (Zpos (Qden x))) in *.
  set (d := inject_Z (Zpos (Qden x))) in *.
  assert (dpos : (0 < d)%Q)
    by (unfold d; rewrite <- (Zlt_Qlt 0); reflexivity).
  assert (upper : (x < pow2 (a - b + 1))%Q).
  { apply (Qmult_lt_r _ _ d dpos); rewrite F.
    apply Qlt_le_trans with (1 := NB).
    replace (a + 1)%Z with ((a - b + 1) + b)%Z by lia; rewrite pow2_add.
    apply Qmult_le_l; [apply pow2_pos | exact DA]. }
  assert (lower : (pow2 (a - b - 1) <= x)%Q).
  { apply (Qmult_le_r _ _ d dpos); rewrite F.
    apply Qle_trans with (2 := NA).
    replace a with ((a - b - 1) + (b + 1))%Z at 2 by lia; rewrite pow2_add.
    apply Qmult_le_l; [apply pow2_pos | apply Qlt_le_weak; exact DB]. }
  unfold ilog2; fold a b.
  destruct (Qle_bool (pow2 (a - b)) x) eqn:T.
  - apply Qle_bool_iff in T; split; assumption.
  - split; [exact lower |].
    replace (a - b - 1 + 1)%Z with (a - b)%Z by lia.
    apply Qnot_le_lt; intros C; apply Qle_bool_iff in C; congruence.
Qed.

Lemma ilog2_lt (x : Q) (k : Z) :
  (0 < x)%Q -> (x < pow2 k)%Q -> (ilog2 x < k)%Z.
Proof.
  intros H U; destruct (ilog2_spec H) as [A _].
  apply pow2_lt_inv; apply Qle_lt_trans with (1 := A); exact U.
Qed.

(** a positive number of the form [M * 2^S], with at most 53 significant
    bits and within the range, is a double: rounding leaves it unchanged *)

Lemma Q2Qc_eq (x y : Q) : (x == y)%Q -> Q2Qc x = Q2Qc y.
Proof. intros H; apply Qc_is_canon; simpl; rewrite H; reflexivity. Qed.

Lemma round_pos_exact_lt (x : Q) (M S : Z) :
  (x == inject_Z M * pow2 S)%Q -> (0 < M < 2 ^ 53)%Z -> (-1074 <= S)%Z ->
  (x < pow2 1024)%Q -> round_pos x = Fin (Q2Qc x).
Proof.
  intros E HM HS HX.
  assert (xpos : (0 < x)%Q).
  { rewrite E; apply Qmult_lt_0_compat;
      [rewrite <- (Zlt_Qlt 0); lia | apply pow2_pos]. }
  assert (L : (ilog2 x < 53 + S)%Z).
  { apply ilog2_lt; [exact xpos |]; rewrite E, pow2_add.
    apply Qmult_lt_r; [apply pow2_pos |].
    rewrite <- pow2_Z by lia; rewrite <- Zlt_Qlt; lia. }
  unfold round_pos.
  set (s := (Z.max (ilog2 x) (-1022) - 52)%Z).
  assert (Hs : (s <= S)%Z) by (unfold s; lia).
  pose proof (pow2_pos s) as sp.
  assert (Q : (x / pow2 s == inject_Z (M * 2 ^ (S - s)))%Q).
  { rewrite inject_Z_mult, pow2_Z by lia; rewrite E.
    replace S with ((S - s) + s)%Z at 1 by lia; rewrite pow2_add.
    field; lra. }
  rewrite (nearest_even_exact Q).
  assert (V : (inject_Z (M * 2 ^ (S - s)) * pow2 s == x)%Q)
    by (rewrite <- Q; field; lra).
  destruct (Qle_bool (pow2 1024) (inject_Z (M * 2 ^ (S - s)) * pow2 s))
    eqn:T.
  - apply Qle_bool_iff in T; rewrite V in T; lra.
  - f_equal; apply Q2Qc_eq; exact V.
Qed.

Lemma round_pos_exact (x : Q) (M S : Z) :
  (x == inject_Z M * pow2 S)%Q -> (0 < M <= 2 ^ 53)%Z -> (-1074 <= S)%Z ->
  (x < pow2 1024)%Q -> round_pos x = Fin (Q2Qc x).
Proof.
  intros E HM HS HX.
  destruct (Z.eq_dec M (2 ^ 53)) as [-> | N].
  - apply round_pos_exact_lt with (M := 1%Z) (S := (53 + S)%Z);
      try lia; try assumption.
    rewrite E, pow2_add; rewrite pow2_Z by lia; ring.
  - apply round_pos_exact_lt with (M := M) (S := S); try lia; assumption.
Qed.

(** what rounding returns for a positive number: infinity, or a multiple
    [m * 2^s] within the range with [m <= 2^53] and [-1074 <= s] *)
Lemma round_pos_shape (x : Q) :
  (0 < x)%Q ->
  round_pos x = Inf false
  \/ exists m s : Z,
       (0 <= m <= 2 ^ 53)%Z /\ (-1074 <= s)%Z
       /\ (inject_Z m * pow2 s < pow2 1024)%Q
       /\ round_pos x = Fin (Q2Qc (inject_Z m * pow2 s)).
Proof.
  intros H; unfold round_pos.
  set (s := (Z.max (ilog2 x) (-1022) - 52)%Z).
  set (m := nearest_even (x / pow2 s)).
  destruct (Qle_bool (pow2 1024) (inject_Z m * pow2 s)) eqn:T;
    [left; reflexivity | right].
  exists m, s.
  pose proof (pow2_pos s) as sp.
  destruct (ilog2_spec H) as [_ U].
  repeat split.
  - apply nearest_even_lower; apply Qle_shift_div_l; [exact sp |].
    change (inject_Z 0) with 0%Q; rewrite Qmult_0_l.
    apply Qlt_le_weak, H.
  - apply nearest_even_upper; apply Qle_shift_div_r; [exact sp |].
    rewrite pow2_Z by lia; rewrite <- pow2_add.
    apply Qlt_le_weak; apply Qlt_le_trans with (1 := U).
    apply pow2_le; unfold s; lia.
  - unfold s; lia.
  - apply Qnot_le_lt; intros C; apply Qle_bool_iff in C; congruence.
Qed.

(** rounding commutes with negation *)

Lemma Qnum_opp (q : Qc) : Qnum (- q)%Qc = (- Qnum q)%Z.
Proof.
  unfold Qcopp, Q2Qc; cbn [this]; rewrite Qred_opp.
  destruct q as [[n d] c]; cbn [this] in *; rewrite c; reflexivity.
Qed.

Lemma f64_neg_neg (x : t) : neg (neg x) = x.
Proof.
  destruct x as [q | s |]; cbn [neg].
  - f_equal; apply Qcopp_involutive.
  - now rewrite negb_involutive.
  - reflexivity.
Qed.

Lemma round_opp (q : Qc) : round (- q)%Qc = neg (round q).
Proof.
  unfold round; rewrite Qnum_opp.
  destruct (Qnum q) as [| p | p] eqn:E; cbn [Z.opp Z.compare neg].
  - reflexivity.
  - now rewrite Qcopp_involutive.
  - now rewrite f64_neg_neg.
Qed.

(** what rounding returns is a double *)

Lemma Qc_pos (q : Qc) : (0 < Qnum q)%Z -> (0 < q)%Q.
Proof.
  destruct q as [[n d] c]; cbn [this Qnum]; unfold Qlt; simpl; lia.
Qed.

Lemma round_positive (q : Qc) : (0 < q)%Q -> round q = round_pos q.
Proof.
  intros H; apply Qnum_pos in H; unfold round.
  destruct (Qnum q); try lia; reflexivity.
Qed.

Lemma round_Q2Qc_exact (v : Q) (M S : Z) :
  (v == inject_Z M * pow2 S)%Q -> (0 <= M <= 2 ^ 53)%Z -> (-1074 <= S)%Z ->
  (v < pow2 1024)%Q -> round (Q2Qc v) = Fin (Q2Qc v).
Proof.
  intros E HM HS HV.
  destruct (Z.eq_dec M 0) as [-> | N].
  - assert (Z0 : Q2Qc v = 0%Qc).
    { change 0%Qc with (Q2Qc 0); apply Q2Qc_eq; rewrite E; ring. }
    rewrite Z0; reflexivity.
  - assert (P : (0 < v)%Q).
    { rewrite E; apply Qmult_lt_0_compat;
        [rewrite <- (Zlt_Qlt 0); lia | apply pow2_pos]. }
    assert (R : (Qred v == v)%Q) by apply Qred_correct.
    rewrite round_positive by (cbn [Q2Qc this]; rewrite R; exact P).
    cbn [Q2Qc this].
    rewrite (@round_pos_exact (Qred v) M S); try lia.
    + f_equal; apply Q2Qc_eq; exact R.
    + rewrite R; exact E.
    + rewrite R; exact HV.
Qed.

Lemma round_pos_double (x : Q) : (0 < x)%Q -> is_double (round_pos x).
Proof.
  intros H.
  destruct (round_pos_shape H) as [-> | (m & s & Hm & Hs & Hv & ->)].
  - exact I.
  - cbn [is_double].
    apply round_Q2Qc_exact with (M := m) (S := s); try assumption.
    reflexivity.
Qed.

Lemma is_double_neg (x : t) : is_double x -> is_double (neg x).
Proof.
  destruct x as [q | s |]; cbn [is_double neg]; try (intros; exact I).
  intros H; now rewrite round_opp, H.
Qed.

Lemma round_double (q : Qc) : is_double (round q).
Proof.
  unfold round; destruct (Qnum q) as [| p | p] eqn:E; cbn [Z.compare].
  - reflexivity.
  - apply round_pos_double, Qc_pos; now rewrite E.
  - apply is_double_neg, round_pos_double, Qc_pos.
    now rewrite Qnum_opp, E.
Qed.

(** the integers up to [2^53] convert exactly *)

Lemma of_Z_opp (z : Z) : of_Z (- z) = neg (of_Z z).
Proof. unfold of_Z; rewrite of_int_opp; apply round_opp. Qed.

Lemma of_Z_exact (z : Z) :
  (Z.abs z <= 2 ^ 53)%Z -> of_Z z = Fin (Num.of_int z).
Proof.
  assert (P : forall n, (0 <= n <= 2 ^ 53)%Z -> of_Z n = Fin (Num.of_int n)).
  { intros n Hn; unfold of_Z, Num.of_int.
    apply round_Q2Qc_exact with (M := n) (S := 0%Z); try lia.
    - rewrite pow2_0; ring.
    - apply Qle_lt_trans with (y := inject_Z (2 ^ 53)).
      + rewrite <- Zle_Qle; lia.
      + rewrite pow2_Z by lia; apply pow2_lt; lia. }
  intros H; destruct (Z_le_gt_dec 0 z) as [G | G].
  - apply P; lia.
  - replace z with (- - z)%Z by lia.
    rewrite of_Z_opp, P by lia; cbn [neg].
    now rewrite <- of_int_opp.
Qed.



(** rounding keeps a number within [[-1, 1]], and a number from 1 on from
    1 on *)

Lemma Q2Qc_le (a b : Q) : (a <= b)%Q -> (Q2Qc a <= Q2Qc b)%Qc.
Proof.
  intros H; unfold Qcle; cbn [Q2Qc this]; rewrite !Qred_correct; exact H.
Qed.

Lemma round_pos_unit (x : Q) :
  (0 < x)%Q -> (x <= 1)%Q ->
  exists r : Qc, round_pos x = Fin r /\ (0 <= r)%Qc /\ (r <= 1)%Qc.
Proof.
  intros H U; unfold round_pos.
  set (s := (Z.max (ilog2 x) (-1022) - 52)%Z).
  set (m := nearest_even (x / pow2 s)).
  pose proof (pow2_pos s) as sp.
  assert (L : (ilog2 x < 1)%Z).
  { apply ilog2_lt; [exact H |].
    apply Qle_lt_trans with (1 := U); reflexivity. }
  assert (Hs : (s < 0)%Z) by (unfold s; lia).
  assert (m0 : (0 <= m)%Z).
  { apply nearest_even_lower; apply Qle_shift_div_l; [exact sp |].
    change (inject_Z 0) with 0%Q; rewrite Qmult_0_l.
    apply Qlt_le_weak, H. }
  assert (one : (inject_Z (2 ^ (- s)) * pow2 s == 1)%Q).
  { rewrite pow2_Z by lia; rewrite Qmult_comm; apply pow2_cancel. }
  assert (m1 : (m <= 2 ^ (- s))%Z).
  { apply nearest_even_upper; apply Qle_shift_div_r; [exact sp |].
    rewrite one; exact U. }
  assert (v0 : (0 <= inject_Z m * pow2 s)%Q).
  { apply Qmult_le_0_compat;
      [rewrite <- (Zle_Qle 0); exact m0 | apply Qlt_le_weak, sp]. }
  assert (v1 : (inject_Z m * pow2 s <= 1)%Q).
  { rewrite <- one; apply Qmult_le_r; [exact sp |].
    rewrite <- Zle_Qle; exact m1. }
  destruct (Qle_bool (pow2 1024) (inject_Z m * pow2 s)) eqn:T.
  - apply Qle_bool_iff in T; exfalso.
    assert (B : (1 < pow2 1024)%Q) by reflexivity; lra.
  - eexists; split; [reflexivity |]; split.
    + change 0%Qc with (Q2Qc 0); apply Q2Qc_le; exact v0.
    + change 1%Qc with (Q2Qc 1); apply Q2Qc_le; exact v1.
Qed.

Lemma round_unit (q : Qc) :
  (- (1) <= q)%Qc -> (q <= 1)%Qc ->
  exists r : Qc, round q = Fin r /\ (- (1) <= r)%Qc /\ (r <= 1)%Qc.
Proof.
  intros L U; unfold round.
  destruct (Qnum q) as [| p | p] eqn:E; cbn [Z.compare].
  - exists 0%Qc; repeat split; discriminate.
  - destruct (@round_pos_unit q) as (r & -> & r0 & r1).
    + apply Qc_pos; now rewrite E.
    + exact U.
    + exists r; repeat split; [| exact r1].
      apply Qcle_trans with (y := 0%Qc); [discriminate | exact r0].
  - destruct (@round_pos_unit (- q)%Qc) as (r & -> & r0 & r1).
    + apply Qc_pos; now rewrite Qnum_opp, E.
    + apply Qcopp_le_compat in L; now rewrite Qcopp_involutive in L.
    + exists (- r)%Qc; repeat split.
      * now apply Qcopp_le_compat.
      * apply Qcle_trans with (y := 0%Qc); [| discriminate].
        now apply Qcopp_le_compat in r0.
Qed.


(** the operations *)

Lemma is_zero_true (q : Qc) : is_zero q = true -> q = 0%Qc.
Proof.
  unfold is_zero; intros H; apply Z.eqb_eq in H; apply Qc_is_canon.
  destruct q as [[n d] c]; cbn [this Qnum] in *; subst n; reflexivity.
Qed.

Lemma is_zero_opp (q : Qc) : is_zero (- q)%Qc = is_zero q.
Proof. unfold is_zero; rewrite Qnum_opp; now destruct (Qnum q). Qed.

Lemma is_neg_opp (q : Qc) :
  is_zero q = false -> is_neg (- q)%Qc = negb (is_neg q).
Proof.
  unfold is_zero, is_neg; rewrite Qnum_opp.
  destruct (Qnum q); [discriminate | reflexivity | reflexivity].
Qed.

Lemma f64_add_neg (x y : t) : add (neg x) (neg y) = neg (add x y).
Proof.
  destruct x as [a | s |], y as [b | s' |]; cbn [add neg]; try reflexivity.
  - rewrite <- round_opp; f_equal; ring.
  - destruct s, s'; reflexivity.
Qed.

Lemma f64_div_neg (x y : t) : div (neg x) y = neg (div x y).
Proof.
  destruct x as [a | s |], y as [b | s' |]; cbn [div neg]; try reflexivity.
  - rewrite is_zero_opp.
    destruct (is_zero b).
    + destruct (is_zero a) eqn:Ea; [reflexivity |].
      cbn [neg]; now rewrite is_neg_opp by exact Ea.
    + rewrite <- round_opp; f_equal; unfold Qcdiv; ring.
  - destruct s, (is_neg b); reflexivity.
Qed.

Lemma div_double (x y : t) : is_double (div x y).
Proof.
  destruct x as [a | s |], y as [b | s' |]; cbn [div]; try exact I.
  - destruct (is_zero b); [destruct (is_zero a); exact I | apply round_double].
  - reflexivity.
Qed.

Lemma f64_add_0_r (x : t) : is_double x -> add x (Fin 0%Qc) = x.
Proof.
  destruct x as [a | s |]; cbn [add is_double]; try reflexivity.
  intros H; now rewrite Qcplus_0_r.
Qed.

Lemma f64_add_0_l (x : t) : is_double x -> add (Fin 0%Qc) x = x.
Proof.
  destruct x as [a | s |]; cbn [add is_double]; try reflexivity.
  intros H; now rewrite Qcplus_0_l.
Qed.

Lemma mul_minus_one (x : t) : is_double x -> mul (Fin (- (1))%Qc) x = neg x.
Proof.
  destruct x as [a | s |]; cbn [mul is_double neg]; try reflexivity.
  intros H; replace (- (1) * a)%Qc with (- a)%Qc by ring.
  now rewrite round_opp, H.
Qed.

(** the real part of [0 + (-1 + 0j) * (x + 0j)] is [-x] *)
Lemma minus_one_times (x : t) :
  is_double x ->
  C128.re (C128.add C128.zero
             (C128.mul (C128.of_real (Fin (- (1))%Qc)) (C128.of_real x)))
  = neg x.
Proof.
  intros H; unfold C128.add, C128.mul, C128.of_real, C128.zero.
  cbn [C128.re C128.im].
  change (mul (Fin 0%Qc) (Fin 0%Qc)) with (Fin 0%Qc).
  rewrite (mul_minus_one x H); unfold sub.
  change (neg (Fin 0%Qc)) with (Fin 0%Qc).
  rewrite f64_add_0_r by (apply is_double_neg, H).
  apply f64_add_0_l, is_double_neg, H.
Qed.

End Rounding.

Import Rounding.

Lemma same_double_eq (x y : F64.t) : same_double x y = true -> x = y.
Proof.
  destruct x as [a | s |], y as [b | s' |]; cbn [same_double]; intros H;
    try discriminate; try reflexivity.
  - f_equal; apply Qc_is_canon; apply Qeq_bool_iff; exact H.
  - f_equal; apply Bool.eqb_prop; exact H.
Qed.

Lemma same_double_result (r : result F64.t) (y : F64.t) :
  match r with
  | Ok x => same_double x y
  | Raise _ => false
  end = true ->
  r = Ok y.
Proof.
  destruct r as [x | e]; [| discriminate].
  intros H; f_equal; now apply same_double_eq.
Qed.

Lemma is_zero_of_int (z : Z) : z <> 0%Z -> F64.is_zero (Num.of_int z) = false.
Proof.
  intros H; destruct (F64.is_zero (Num.of_int z)) eqn:E; [| reflexivity].
  apply is_zero_true in E; now apply of_int_neq0 in E.
Qed.

(** ** The arithmetic evaluated *)

(** the double written [0.1]; [4.0 / 10], the double written [0.4];
    [0.1 + 0.2 + 0.3], the double written [0.6000000000000001];
    [1.0 / 3] *)
Example double_quotients :
  F64.round (Num.frac 1 10)
  = F64.Fin (Num.frac 3602879701896397 36028797018963968)
  /\ F64.div (F64.of_Z 4) (F64.of_Z 10)
     = F64.Fin (Num.frac 3602879701896397 9007199254740992)
  /\ F64.add
       (F64.add (F64.round (Num.frac 1 10)) (F64.round (Num.frac 2 10)))
       (F64.round (Num.frac 3 10))
     = F64.Fin (Num.frac 1351079888211149 2251799813685248)
  /\ F64.div (F64.of_Z 1) (F64.of_Z 3)
     = F64.Fin (Num.frac 6004799503160661 18014398509481984).
Proof.
  repeat split; apply same_double_eq; vm_compute; reflexivity.
Qed.

(** integers past [2^53]: a tie goes to the even significand; the largest
    integers that convert; the smallest one that does not *)
Example double_integers :
  F64.of_Z (2 ^ 53 + 1) = F64.Fin (Num.of_int (2 ^ 53))
  /\ F64.of_Z (2 ^ 53 + 3) = F64.Fin (Num.of_int (2 ^ 53 + 4))
  /\ F64.of_Z (2 ^ 1024 - 2 ^ 970 - 1)
     = F64.Fin (Num.of_int (2 ^ 1024 - 2 ^ 971))
  /\ F64.of_Z (2 ^ 1024 - 2 ^ 970) = F64.Inf false
  /\ F64.of_Z (- 2 ^ 1024) = F64.Inf true.
Proof.
  repeat split; apply same_double_eq; vm_compute; reflexivity.
Qed.

(** gradual underflow: the smallest positive double is [2^-1074]; half of
    it rounds to zero and three halves of it to [2^-1073] *)
Example double_underflow :
  F64.round (Num.frac 1 (2 ^ 1074)) = F64.Fin (Num.frac 1 (2 ^ 1074))
  /\ F64.round (Num.frac 1 (2 ^ 1075)) = F64.Fin 0%Qc
  /\ F64.round (Num.frac 3 (2 ^ 1075)) = F64.Fin (Num.frac 1 (2 ^ 1073)).
Proof.
  repeat split; apply same_double_eq; vm_compute; reflexivity.
Qed.

(** infinities and nan *)
Example double_specials :
  F64.add (F64.Inf false) (F64.Inf true) = F64.NaN
  /\ F64.mul (F64.Fin 0%Qc) (F64.Inf false) = F64.NaN
  /\ F64.mul (F64.Fin (- (1))%Qc) (F64.Inf false) = F64.Inf true
  /\ F64.div (F64.Fin 1%Qc) (F64.Inf true) = F64.Fin 0%Qc
  /\ F64.add (F64.of_Z (2 ^ 1023)) (F64.of_Z (2 ^ 1023)) = F64.Inf false.
Proof.
  repeat split; apply same_double_eq; vm_compute; reflexivity.
Qed.

(** ** The edge-correlation estimator *)

Lemma fold_left_add (l : list Z) (a : Z) :
  fold_left Z.add l a = (a + Zsum l)%Z.
Proof.
  revert a; induction l as [|c l IH]; intros a; simpl; [lia|].
  rewrite IH; lia.
Qed.

Lemma total_Zsum (counts : Counts) : total counts = Zsum (map snd counts).
Proof. unfold total; now rewrite fold_left_add. Qed.

Lemma Zsum_cons (a : Z) (l : list Z) : Zsum (a :: l) = (a + Zsum l)%Z.
Proof. reflexivity. Qed.

Lemma sign_pow_succ (p : nat) : sign_pow (S p) = (- sign_pow p)%Z.
Proof.
  unfold sign_pow; rewrite Nat2Z.inj_succ, Z.pow_succ_r by lia; lia.
Qed.

Lemma sign_pow_cases (p : nat) : sign_pow p = 1%Z \/ sign_pow p = (-1)%Z.
Proof.
  induction p as [|p IH]; [now left|].
  rewrite sign_pow_succ; lia.
Qed.




(** the loop adds the summands [-(-1)^parity * count] one by one *)
Lemma edge_fold (counts : Counts) (a : F64.t) :
  fold_left
    (fun acc item =>
       F64.sub acc (F64.of_Z (sign_pow (ones_in (fst item)) * snd item)))
    counts a
  = fold_left (fun acc w => F64.add acc (F64.of_Z w)) (edge_terms counts) a.
Proof.
  revert a; induction counts as [|item counts IH]; intros a; [reflexivity|].
  cbn [fold_left edge_terms map]; rewrite IH.
  unfold F64.sub; now rewrite of_Z_opp.
Qed.

Lemma Zsum_abs_nonneg (l : list Z) : (0 <= Zsum (map Z.abs l))%Z.
Proof. induction l as [|c l IH]; simpl; lia. Qed.

Lemma Zsum_abs (l : list Z) : (Z.abs (Zsum l) <= Zsum (map Z.abs l))%Z.
Proof. induction l as [|c l IH]; simpl; lia. Qed.

(** below [2^53] every partial sum is an integer that is a double, and the
    running sum is exact *)
Lemma float_sum_from (l : list Z) (a : Z) :
  (Z.abs a + Zsum (map Z.abs l) <= 2 ^ 53)%Z ->
  fold_left (fun acc w => F64.add acc (F64.of_Z w)) l
    (F64.Fin (Num.of_int a))
  = F64.Fin (Num.of_int (a + Zsum l)).
Proof.
  revert a; induction l as [|w l IH]; intros a H.
  - cbn [fold_left Zsum fold_right]; now rewrite Z.add_0_r.
  - pose proof (Zsum_abs_nonneg l) as P.
    cbn [map] in H; rewrite Zsum_cons in H.
    cbn [fold_left]; rewrite (@of_Z_exact w) by lia.
    cbn [F64.add]; rewrite <- of_int_add.
    change (F64.round (Num.of_int (a + w))) with (F64.of_Z (a + w)).
    rewrite of_Z_exact by lia.
    rewrite IH by lia.
    rewrite Zsum_cons; do 2 f_equal; lia.
Qed.

Lemma float_sum_exact (l : list Z) :
  (Zsum (map Z.abs l) <= 2 ^ 53)%Z ->
  float_sum l = F64.Fin (Num.of_int (Zsum l)).
Proof.
  intros H; unfold float_sum.
  change (F64.Fin 0%Qc) with (F64.Fin (Num.of_int 0)).
  now rewrite float_sum_from by (cbn [Z.abs]; lia).
Qed.

Lemma edge_terms_abs (counts : Counts) :
  Zsum (map Z.abs (edge_terms counts)) = magnitude counts.
Proof.
  unfold magnitude, edge_terms; rewrite map_map.
  induction counts as [|item counts IH]; [reflexivity|].
  cbn [map]; rewrite !Zsum_cons, IH.
  destruct (sign_pow_cases (ones_in (fst item))) as [-> | ->]; lia.
Qed.

Lemma total_magnitude (counts : Counts) :
  (Z.abs (total counts) <= magnitude counts)%Z.
Proof.
  rewrite total_Zsum; unfold magnitude.
  rewrite <- (map_map snd Z.abs); apply Zsum_abs.
Qed.

Lemma edge_correlation_zero (counts : Counts) :
  total counts = 0%Z ->
  compute_measure_edge_correlation counts = Raise ZeroDivisionError.
Proof.
  intros HT; unfold compute_measure_edge_correlation, F64.py_div.
  now rewrite HT.
Qed.

(** below [2^53] the only rounding is that of the quotient *)
Lemma edge_correlation_closed (counts : Counts) :
  (magnitude counts <= 2 ^ 53)%Z -> total counts <> 0%Z ->
  compute_measure_edge_correlation counts
  = Ok (F64.round
          (Num.of_int (Zsum (edge_terms counts))
           / Num.of_int (total counts))%Qc).
Proof.
  intros HM HT; unfold compute_measure_edge_correlation, F64.py_div.
  rewrite edge_fold.
  fold (float_sum (edge_terms counts)).
  rewrite float_sum_exact by (now rewrite edge_terms_abs).
  replace (total counts =? 0)%Z with false by (symmetry; now apply Z.eqb_neq).
  cbn [bind].
  rewrite (@of_Z_exact (total counts))
    by (pose proof (total_magnitude counts); lia).
  cbn [F64.div]; now rewrite is_zero_of_int.
Qed.


Lemma Zsum_scale (k : Z) (l : list Z) :
  Zsum (map (fun c => (c * k)%Z) l) = (Zsum l * k)%Z.
Proof. induction l as [|c l IH]; simpl; [reflexivity | rewrite IH; lia]. Qed.

Lemma edge_terms_scale (k : Z) (counts : Counts) :
  Zsum (edge_terms (scale_counts k counts))
  = (Zsum (edge_terms counts) * k)%Z.
Proof.
  unfold edge_terms, scale_counts.
  induction counts as [|item counts IH]; simpl; [reflexivity|].
  rewrite IH; lia.
Qed.

Lemma total_scale (k : Z) (counts : Counts) :
  total (scale_counts k counts) = (total counts * k)%Z.
Proof.
  rewrite !total_Zsum; unfold scale_counts.
  rewrite map_map; simpl.
  rewrite <- Zsum_scale, map_map; reflexivity.
Qed.

Lemma magnitude_scale (k : Z) (counts : Counts) :
  (0 <= k)%Z ->
  magnitude (scale_counts k counts) = (magnitude counts * k)%Z.
Proof.
  intros Hk; unfold magnitude, scale_counts.
  induction counts as [|item counts IH]; [reflexivity|].
  cbn [map fst snd]; rewrite !Zsum_cons, IH, Z.abs_mul; lia.
Qed.

Lemma magnitude_nonneg (counts : Counts) : (0 <= magnitude counts)%Z.
Proof.
  unfold magnitude; induction counts as [|item counts IH]; simpl; lia.
Qed.

Lemma magnitude_total (counts : Counts) :
  Forall (fun item => (0 <= snd item)%Z) counts ->
  magnitude counts = total counts.
Proof.
  intros H; rewrite total_Zsum; unfold magnitude.
  induction H as [|item counts Hc _ IH]; [reflexivity|].
  cbn [map]; rewrite !Zsum_cons, IH; lia.
Qed.

Lemma edge_terms_bound (counts : Counts) :
  Forall (fun item => (0 <= snd item)%Z) counts ->
  (- Zsum (map snd counts) <= Zsum (edge_terms counts)
   <= Zsum (map snd counts))%Z.
Proof.
  induction 1 as [|item counts Hc _ IH]; simpl; [lia|].
  destruct (sign_pow_cases (ones_in (fst item))) as [-> | ->]; lia.
Qed.

Lemma ratio_bound (s t : Z) :
  (0 < t)%Z -> (- t <= s <= t)%Z ->
  (- (1) <= Num.of_int s / Num.of_int t <= 1)%Qc.
Proof.
  intros Ht [Hl Hu].
  assert (Hp : (0 < Num.of_int t)%Qc)
    by (rewrite <- of_int_0; now apply of_int_lt).
  assert (Hn : Num.of_int t <> 0%Qc) by (apply of_int_neq0; lia).
  assert (E : (Num.of_int s / Num.of_int t * Num.of_int t)%Qc = Num.of_int s)
    by (field; exact Hn).
  split; apply Qcmult_lt_0_le_reg_r with (z := Num.of_int t); try exact Hp;
    rewrite E.
  - replace (- (1) * Num.of_int t)%Qc with (Num.of_int (- t))
      by (rewrite of_int_opp; ring).
    now apply of_int_le.
  - rewrite Qcmult_1_l; now apply of_int_le.
Qed.




(** C9, as the code has it.  Multiplying every count by a positive integer
    [k] leaves the value returned by [compute_measure_edge_correlation]
    unchanged, as long as the scaled absolute counts sum to at most
    [2^53]. *)
Theorem edge_correlation_scale_invariant :
  forall (counts : Counts) (k : Z),
    (0 < total counts)%Z -> (0 < k)%Z ->
    (magnitude counts * k <= 2 ^ 53)%Z ->
    (exists v : F64.t, compute_measure_edge_correlation counts = Ok v)
    /\ compute_measure_edge_correlation (scale_counts k counts)
       = compute_measure_edge_correlation counts.
Proof.
  intros counts k HT Hk HM.
  pose proof (magnitude_nonneg counts) as H0.
  assert (HM' : (magnitude counts <= 2 ^ 53)%Z) by nia.
  rewrite (@edge_correlation_closed counts) by (try assumption; lia).
  split; [eexists; reflexivity|].
  rewrite edge_correlation_closed
    by (rewrite ?magnitude_scale, ?total_scale by lia; try assumption; nia).
  rewrite edge_terms_scale, total_scale, !of_int_mul; do 2 f_equal.
  field; split; apply of_int_neq0; lia.
Qed.

Lemma edge_correlation_scale_invariant_witness :
  let counts := [("0100"%string, 7%Z); ("0110"%string, 3%Z)] in
  (exists v : F64.t, compute_measure_edge_correlation counts = Ok v)
  /\ compute_measure_edge_correlation (scale_counts 5 counts)
     = compute_measure_edge_correlation counts.
Proof.
  intros counts.
  apply (@edge_correlation_scale_invariant counts 5).
  - vm_compute; reflexivity.
  - vm_compute; reflexivity.
  - vm_compute; discriminate.
Defined.

(** C9 as stated fails: the counts [{'0': 1, '1': 2^53 - 1}] have a
    positive total; the code returns [1 - 2^-52] on them and, with every
    count multiplied by 3, [1 - 3 * 2^-53]. *)
Lemma edge_correlation_scale_changes :
  let counts := [("0"%string, 1%Z); ("1"%string, (2 ^ 53 - 1)%Z)] in
  (0 < total counts)%Z
  /\ compute_measure_edge_correlation counts
     = Ok (F64.Fin (Num.frac (2 ^ 52 - 1) (2 ^ 52)))
  /\ compute_measure_edge_correlation (scale_counts 3 counts)
     = Ok (F64.Fin (Num.frac (2 ^ 53 - 3) (2 ^ 53)))
  /\ compute_measure_edge_correlation (scale_counts 3 counts)
     <> compute_measure_edge_correlation counts.
Proof.
  intros counts.
  assert (E1 : compute_measure_edge_correlation counts
               = Ok (F64.Fin (Num.frac (2 ^ 52 - 1) (2 ^ 52)))).
  { apply same_double_result; vm_compute; reflexivity. }
  assert (E3 : compute_measure_edge_correlation (scale_counts 3 counts)
               = Ok (F64.Fin (Num.frac (2 ^ 53 - 3) (2 ^ 53)))).
  { apply same_double_result; vm_compute; reflexivity. }
  split; [reflexivity|].
  split; [exact E1|].
  split; [exact E3|].
  rewrite E1, E3; intros C.
  apply (f_equal (fun r => match r with
                           | Ok (F64.Fin q) =>
                               Qeq_bool q (Num.frac (2 ^ 52 - 1) (2 ^ 52))
                           | _ => false
                           end)) in C.
  vm_compute in C; discriminate C.
Qed.

(** C10, as the code has it.  With non-negative counts and a positive total
    of at most [2^53], the value returned by
    [compute_measure_edge_correlation] is a finite double between [-1] and
    [1]. *)
Theorem edge_correlation_bounded :
  forall counts : Counts,
    Forall (fun item => (0 <= snd item)%Z) counts ->
    (0 < total counts)%Z -> (total counts <= 2 ^ 53)%Z ->
    exists v : Qc,
      compute_measure_edge_correlation counts = Ok (F64.Fin v)
      /\ (- (1) <= v <= 1)%Qc.
Proof.
  intros counts Hc HT HB.
  rewrite edge_correlation_closed
    by (rewrite ?magnitude_total by assumption; lia).
  destruct (@round_unit
              (Num.of_int (Zsum (edge_terms counts))
               / Num.of_int (total counts))%Qc) as [r [Er Hr]].
  - apply ratio_bound; [exact HT|].
    rewrite total_Zsum; now apply edge_terms_bound.
  - apply ratio_bound; [exact HT|].
    rewrite total_Zsum; now apply edge_terms_bound.
  - exists r; rewrite Er; split; [reflexivity | exact Hr].
Qed.

Lemma edge_correlation_bounded_witness :
  let counts :=
    [("0100"%string, 7%Z); ("0110"%string, 3%Z); ("0000"%string, 0%Z)] in
  exists v : Qc,
    compute_measure_edge_correlation counts = Ok (F64.Fin v)
    /\ (- (1) <= v <= 1)%Qc.
Proof.
  intros counts.
  apply (@edge_correlation_bounded counts).
  - repeat constructor; vm_compute; discriminate.
  - vm_compute; reflexivity.
  - vm_compute; discriminate.
Defined.

(** C10 as stated fails: the counts [{'1': 2^53 - 1, '111': 2^53 + 3}] are
    non-negative with a positive total; the second count converts to
    [2^53 + 4], the accumulator rounds to [2^54 + 4] and the total to
    [2^54], and the code returns [1 + 2^-52], which is above 1. *)
Lemma edge_correlation_above_one :
  let counts :=
    [("1"%string, (2 ^ 53 - 1)%Z); ("111"%string, (2 ^ 53 + 3)%Z)] in
  Forall (fun item => (0 <= snd item)%Z) counts
  /\ (0 < total counts)%Z
  /\ compute_measure_edge_correlation counts
     = Ok (F64.Fin (Num.frac (2 ^ 52 + 1) (2 ^ 52)))
  /\ (1 < Num.frac (2 ^ 52 + 1) (2 ^ 52))%Qc.
Proof.
  intros counts.
  split; [repeat constructor; vm_compute; discriminate|].
  split; [reflexivity|].
  split; [|reflexivity].
  apply same_double_result; vm_compute; reflexivity.
Qed.

(** ** The Hamiltonian estimator *)

Lemma skipn_nth_error {A : Type} (l : list A) (i : nat) (a : A) :
  nth_error l i = Some a -> skipn i l = a :: skipn (S i) l.
Proof.
  revert i; induction l as [|b l IH]; intros [|i] H; simpl in H;
    try discriminate.
  - now injection H as ->.
  - now apply IH.
Qed.

Lemma masked_parity_ok (mask : list bool) (bitstring : string) (i : nat) :
  String.length bitstring + i <= length mask ->
  masked_parity mask i bitstring = Ok (flagged_ones (skipn i mask) bitstring).
Proof.
  revert i; induction bitstring as [|b rest IH]; intros i Hlen; simpl in *.
  - unfold flagged_ones; simpl.
    now destruct (skipn i mask).
  - destruct (nth_error mask i) as [p|] eqn:Ep.
    + rewrite IH by lia; cbn [bind].
      rewrite (skipn_nth_error _ _ Ep).
      unfold flagged_ones; simpl.
      now destruct (p && Ascii.eqb b "1")%bool.
    + apply nth_error_None in Ep; lia.
Qed.

Lemma term_loop_ok (mask : list bool) (counts : Counts) (a : F64.t) :
  fits (length mask) counts ->
  for_each
    (fun acc item =>
       (parity <- masked_parity mask 0 (fst item) ;;
        Ok (F64.add acc (F64.of_Z (sign_pow parity * snd item))))%py)
    counts a
  = Ok (fold_left (fun acc w => F64.add acc (F64.of_Z w))
          (map (fun item =>
                  (sign_pow (flagged_ones mask (fst item)) * snd item)%Z)
             counts)
          a).
Proof.
  intros Hf; revert a; induction Hf as [|item counts Hi _ IH]; intros a;
    [reflexivity|].
  cbn [for_each map fold_left].
  rewrite masked_parity_ok by lia; cbn [bind skipn].
  apply IH.
Qed.

Lemma term_expectation_ok (mask : list bool) (counts : Counts) :
  fits (length mask) counts -> total counts <> 0%Z ->
  term_expectation counts (total counts) mask = Ok (bit_statistic counts mask).
Proof.
  intros Hf HT; unfold term_expectation, F64.py_div.
  rewrite term_loop_ok by assumption; cbn [bind].
  replace (total counts =? 0)%Z with false by (symmetry; now apply Z.eqb_neq).
  unfold bit_statistic, float_sum; now rewrite total_Zsum.
Qed.

Lemma hamiltonian_body_ok (nq : nat) (counts_z counts_x : Counts)
    (acc : C128.t) (tc : Pauli.t * C128.t) :
  total counts_z <> 0%Z -> total counts_x <> 0%Z ->
  fits nq counts_z -> fits nq counts_x ->
  length (Pauli.z (fst tc)) = nq -> length (Pauli.x (fst tc)) = nq ->
  hamiltonian_body counts_z counts_x (total counts_z) (total counts_x) acc tc
  = Ok (C128.add acc (dispatch_value counts_z counts_x tc)).
Proof.
  intros Hz Hx Fz Fx Lz Lx; unfold hamiltonian_body, dispatch_value.
  destruct (np_any (Pauli.z (fst tc))).
  - rewrite term_expectation_ok by (rewrite ?Lz; assumption); reflexivity.
  - destruct (np_any (Pauli.x (fst tc))); [|reflexivity].
    rewrite term_expectation_ok by (rewrite ?Lx; assumption); reflexivity.
Qed.

Lemma hamiltonian_loop_ok (nq : nat) (counts_z counts_x : Counts)
    (terms : list (Pauli.t * C128.t)) (acc : C128.t) :
  total counts_z <> 0%Z -> total counts_x <> 0%Z ->
  fits nq counts_z -> fits nq counts_x ->
  Forall (fun tc => length (Pauli.z (fst tc)) = nq
                    /\ length (Pauli.x (fst tc)) = nq) terms ->
  for_each
    (hamiltonian_body counts_z counts_x (total counts_z) (total counts_x))
    terms acc
  = Ok (fold_left C128.add (map (dispatch_value counts_z counts_x) terms)
          acc).
Proof.
  intros Hz Hx Fz Fx HT; revert acc.
  induction HT as [|tc terms [Lz Lx] _ IH]; intros acc; [reflexivity|].
  cbn [for_each map fold_left].
  rewrite (hamiltonian_body_ok acc tc Hz Hx Fz Fx Lz Lx); cbn [bind].
  apply IH.
Qed.

(** C4. Each Pauli term is dispatched on its Z mask first: with a Z factor
    it is evaluated against [counts_z], normalised by the sum of [counts_z],
    through its Z mask, whatever its X mask holds; with no Z factor and an X
    factor it is evaluated against [counts_x] through its X mask; with
    neither it contributes its coefficient.  The estimator returns the real
    part of the running complex128 sum of these contributions, each bit
    statistic being the running double sum of the signed counts divided by
    the converted total. *)
Theorem compute_measure_hamiltonian_dispatch :
  forall (nq : nat) (counts_z counts_x : Counts) (hamiltonian : SparsePauliOp),
    total counts_z <> 0%Z -> total counts_x <> 0%Z ->
    converts counts_z -> converts counts_x ->
    fits nq counts_z -> fits nq counts_x ->
    Forall (fun term => length (Pauli.z term) = nq
                        /\ length (Pauli.x term) = nq)
      (paulis hamiltonian) ->
    compute_measure_hamiltonian counts_z counts_x hamiltonian
    = Ok (C128.re
            (complex_sum
               (map (dispatch_value counts_z counts_x)
                  (combine (paulis hamiltonian) (coeffs hamiltonian))))).
Proof.
  intros nq counts_z counts_x hamiltonian Hz Hx _ _ Fz Fx HT.
  unfold compute_measure_hamiltonian.
  rewrite (@hamiltonian_loop_ok nq) by
    (try assumption;
     apply Forall_forall; intros [term coeff] Hin;
     apply in_combine_l in Hin;
     rewrite Forall_forall in HT; exact (HT term Hin)).
  reflexivity.
Qed.

Lemma compute_measure_hamiltonian_dispatch_witness :
  let counts_z := [("00"%string, 2%Z); ("01"%string, 1%Z)] in
  let counts_x := [("10"%string, 2%Z); ("11"%string, 2%Z)] in
  let hamiltonian :=
    mkSparsePauliOp
      [ Pauli.mk [true; false] [false; false];
        Pauli.mk [false; false] [false; true];
        Pauli.mk [false; false] [false; false];
        Pauli.mk [false; true] [true; false] ]
      [ C128.of_real (F64.Fin 1%Qc);
        C128.of_real (F64.Fin (Num.frac 1 2));
        C128.mk (F64.Fin (Num.frac 3 4)) (F64.Fin 1%Qc);
        C128.of_real (F64.Fin (Num.frac (-2) 1)) ] in
  compute_measure_hamiltonian counts_z counts_x hamiltonian
  = Ok (C128.re
          (complex_sum
             (map (dispatch_value counts_z counts_x)
                (combine (paulis hamiltonian) (coeffs hamiltonian))))).
Proof.
  intros counts_z counts_x hamiltonian.
  apply (@compute_measure_hamiltonian_dispatch 2 counts_z counts_x hamiltonian).
  - vm_compute; discriminate.
  - vm_compute; discriminate.
  - split; [repeat constructor | vm_compute; exact I].
  - split; [repeat constructor | vm_compute; exact I].
  - repeat constructor.
  - repeat constructor.
  - repeat constructor.
Defined.

(** one Z term of coefficient 1 on the counts [{'0': 2, '1': 1}] gives the
    double written [0.3333333333333333]; identity terms of coefficients
    [0.1], [0.2] and [0.3] give the running sum [0.6000000000000001] *)
Example compute_measure_hamiltonian_samples :
  compute_measure_hamiltonian [("0"%string, 2%Z); ("1"%string, 1%Z)] []
    (mkSparsePauliOp [Pauli.mk [true] [false]]
       [C128.of_real (F64.Fin 1%Qc)])
  = Ok (F64.Fin (Num.frac 6004799503160661 18014398509481984))
  /\ compute_measure_hamiltonian [] []
       (mkSparsePauliOp
          [ Pauli.mk [false] [false]; Pauli.mk [false] [false];
            Pauli.mk [false] [false] ]
          [ C128.of_real (F64.round (Num.frac 1 10));
            C128.of_real (F64.round (Num.frac 2 10));
            C128.of_real (F64.round (Num.frac 3 10)) ])
     = Ok (F64.Fin (Num.frac 1351079888211149 2251799813685248)).
Proof.
  split; apply same_double_result; vm_compute; reflexivity.
Qed.

(** ** A zero shot total *)









(** ** Complex sums *)

Lemma Cadd_assoc (a b c : Num.C) :
  Num.Cadd (Num.Cadd a b) c = Num.Cadd a (Num.Cadd b c).
Proof. unfold Num.Cadd; cbn [Num.re Num.im]; f_equal; ring. Qed.

Lemma Cadd_C0_r (a : Num.C) : Num.Cadd a Num.C0 = a.
Proof.
  destruct a as [r i]; unfold Num.Cadd, Num.C0; cbn [Num.re Num.im].
  f_equal; ring.
Qed.

Lemma Cadd_C0_l (a : Num.C) : Num.Cadd Num.C0 a = a.
Proof.
  destruct a as [r i]; unfold Num.Cadd, Num.C0; cbn [Num.re Num.im].
  f_equal; ring.
Qed.

(** ** Strings *)

Section Strings.
Local Open Scope string_scope.

Lemma append_assoc (s t u : string) : (s ++ t) ++ u = s ++ t ++ u.
Proof. induction s as [|c s IH]; simpl; [reflexivity | now rewrite IH]. Qed.

Lemma chars_append (s t : string) :
  list_ascii_of_string (s ++ t)
  = (list_ascii_of_string s ++ list_ascii_of_string t)%list.
Proof. induction s as [|c s IH]; simpl; [reflexivity | now rewrite IH]. Qed.

Lemma chars_inj (s t : string) :
  list_ascii_of_string s = list_ascii_of_string t -> s = t.
Proof.
  intros H; apply (f_equal string_of_list_ascii) in H.
  now rewrite !string_of_list_ascii_of_string in H.
Qed.

Lemma append_inv_head (s t u : string) : s ++ t = s ++ u -> t = u.
Proof.
  induction s as [|c s IH]; simpl; intros H; [exact H|].
  injection H as H; now apply IH.
Qed.

Lemma append_inv_tail (s t u : string) : s ++ u = t ++ u -> s = t.
Proof.
  intros H; apply chars_inj.
  apply (f_equal list_ascii_of_string) in H.
  rewrite !chars_append in H.
  now apply app_inv_tail in H.
Qed.

Lemma ends_plain_append (s t : string) : ends_plain t -> ends_plain (s ++ t).
Proof.
  intros [Hne He]; induction s as [|c s [IH1 IH2]]; [now split|].
  split; [discriminate|]; simpl.
  destruct (s ++ t) eqn:E; [now elim IH1 | exact IH2].
Qed.

Lemma join_step_plain (p b : string) :
  ends_plain p -> Py.startswith_sep b = false ->
  Py.join_step p b = p ++ "/" ++ b.
Proof.
  intros [Hne He] Hb; unfold Py.join_step; rewrite Hb, He.
  now replace (p =? "") with false by (symmetry; now apply String.eqb_neq).
Qed.

Lemma join_step_first (a b : string) :
  Py.startswith_sep b = false -> Py.join_step a b = prefix_of a ++ b.
Proof.
  intros Hb; unfold Py.join_step, prefix_of; rewrite Hb.
  destruct ((a =? "") || Py.endswith_sep a)%bool; [reflexivity|].
  now rewrite append_assoc.
Qed.

Lemma str_int_digit (z : Z) :
  (0 <= z < 10)%Z -> ends_plain (Py.str_int z).
Proof.
  intros H.
  assert (E : (z = 0 \/ z = 1 \/ z = 2 \/ z = 3 \/ z = 4 \/ z = 5
               \/ z = 6 \/ z = 7 \/ z = 8 \/ z = 9)%Z) by lia.
  repeat (destruct E as [-> | E]; [split; [discriminate | reflexivity]|]).
  subst z; split; [discriminate | reflexivity].
Qed.

Lemma format_2f_plain (v : Qc) : ends_plain (Py.format_2f v).
Proof.
  unfold Py.format_2f.
  repeat apply ends_plain_append.
  apply str_int_digit, Z.mod_pos_bound; lia.
Qed.

Lemma str_tuple_plain (l : list Z) : ends_plain (Py.str_tuple l).
Proof.
  unfold Py.str_tuple.
  destruct l as [|a [|b l]]; repeat apply ends_plain_append;
    split; (discriminate || reflexivity).
Qed.

End Strings.

Lemma filename_closed (self : KitaevHamiltonianTask) :
  filename self
  = (((prefix_of (experiment_id self) ++ params_part self)
       ++ "/" ++ "shots" ++ Py.str_tuple (shots self))
      ++ "/" ++ Py.str_tuple (occupied_orbitals self))%string.
Proof.
  unfold filename, Py.path_join; cbn [fold_left].
  fold (params_part self).
  assert (Hp : ends_plain (params_part self)).
  { unfold params_part; do 7 apply ends_plain_append.
    apply format_2f_plain. }
  rewrite (@join_step_first (experiment_id self) (params_part self))
    by reflexivity.
  rewrite (@join_step_plain (prefix_of (experiment_id self) ++ params_part self)
             ("shots" ++ Py.str_tuple (shots self)));
    [| now apply ends_plain_append | reflexivity].
  rewrite join_step_plain; [reflexivity | |].
  - apply ends_plain_append, (@ends_plain_append "/"),
      (@ends_plain_append "shots"), str_tuple_plain.
  - destruct (occupied_orbitals self) as [|a [|b l]]; reflexivity.
Qed.

(** ** Printing integers and tuples is injective *)

Section Printing.
Local Open Scope string_scope.

Lemma str_int_inj (a b : Z) : Py.str_int a = Py.str_int b -> a = b.
Proof.
  unfold Py.str_int; intros H.
  apply DecimalZ.to_int_inj.
  apply (f_equal NilEmpty.int_of_string) in H.
  rewrite !NilEmpty.isi in H; now injection H.
Qed.

Lemma string_of_uint_all_item (d : Decimal.uint) :
  all_item (NilEmpty.string_of_uint d) = true.
Proof. induction d; simpl; auto. Qed.

Lemma str_int_all_item (z : Z) : all_item (Py.str_int z) = true.
Proof.
  unfold Py.str_int; destruct (Z.to_int z) as [d|d]; simpl;
    apply string_of_uint_all_item.
Qed.

Lemma split_at_separator (u u' : string) (c c' : ascii) (r r' : string) :
  all_item u = true -> all_item u' = true ->
  item_char c = false -> item_char c' = false ->
  u ++ String c r = u' ++ String c' r' ->
  u = u' /\ c = c' /\ r = r'.
Proof.
  revert u'; induction u as [|a u IH]; intros [|a' u'] Hu Hu' Hc Hc' E;
    simpl in *.
  - now injection E as -> ->.
  - injection E as -> _.
    apply andb_prop in Hu' as [Ha _]; congruence.
  - injection E as -> _.
    apply andb_prop in Hu as [Ha _]; congruence.
  - injection E as -> E.
    apply andb_prop in Hu as [_ Hu]; apply andb_prop in Hu' as [_ Hu'].
    destruct (IH u' Hu Hu' Hc Hc' E) as [-> [-> ->]]; auto.
Qed.

Lemma item_split (a b : Z) (c c' : ascii) (r r' : string) :
  item_char c = false -> item_char c' = false ->
  Py.str_int a ++ String c r = Py.str_int b ++ String c' r' ->
  a = b /\ c = c' /\ r = r'.
Proof.
  intros Hc Hc' E.
  destruct (@split_at_separator (Py.str_int a) (Py.str_int b) c c' r r'
              (str_int_all_item a) (str_int_all_item b) Hc Hc' E)
    as [Hs [-> ->]].
  apply str_int_inj in Hs; auto.
Qed.

(** two printed items that stop at different separators cannot be equal *)
Ltac separator_clash E u u' :=
  exfalso;
  apply (@split_at_separator u u') in E;
  [ destruct E as [_ [E _]]; discriminate
  | first [apply str_int_all_item | reflexivity] ..].

Lemma closed_items_one (a : Z) :
  closed_items [a] = Py.str_int a ++ String ")" "".
Proof. reflexivity. Qed.

Lemma closed_items_more (a b : Z) (l : list Z) :
  closed_items (a :: b :: l)
  = Py.str_int a ++ String "," (String " " (closed_items (b :: l))).
Proof.
  unfold closed_items; cbn [Py.join_items].
  now rewrite append_assoc.
Qed.

Lemma closed_items_inj (l1 l2 : list Z) :
  l1 <> [] -> l2 <> [] -> closed_items l1 = closed_items l2 -> l1 = l2.
Proof.
  revert l2; induction l1 as [|a t1 IH]; intros [|b t2] H1 H2 E;
    try congruence.
  destruct t1 as [|a2 t1]; destruct t2 as [|b2 t2];
    rewrite ?closed_items_one, ?closed_items_more in E;
    apply item_split in E; try reflexivity;
    destruct E as [-> [Ec Er]]; try discriminate.
  - reflexivity.
  - injection Er as Er.
    f_equal; apply IH; [discriminate | discriminate | exact Er].
Qed.

Lemma str_tuple_inj (l1 l2 : list Z) :
  Py.str_tuple l1 = Py.str_tuple l2 -> l1 = l2.
Proof.
  assert (T0 : Py.str_tuple [] = String "(" ("" ++ String ")" ""))
    by reflexivity.
  assert (T1 : forall a,
             Py.str_tuple [a]
             = String "(" (Py.str_int a ++ String "," (String ")" "")))
    by reflexivity.
  assert (T2 : forall a b l,
             Py.str_tuple (a :: b :: l)
             = String "(" (closed_items (a :: b :: l)))
    by reflexivity.
  destruct l1 as [|a [|a2 t1]]; destruct l2 as [|b [|b2 t2]];
    rewrite ?T0, ?T1, ?T2; intros E; try reflexivity; injection E as E;
    rewrite ?closed_items_more in E.
  - separator_clash E EmptyString (Py.str_int b).
  - separator_clash E EmptyString (Py.str_int b).
  - separator_clash E (Py.str_int a) EmptyString.
  - apply item_split in E; try reflexivity.
    now destruct E as [-> _].
  - exfalso.
    apply item_split in E; try reflexivity.
    destruct E as [_ [_ E]]; discriminate.
  - separator_clash E (Py.str_int a) EmptyString.
  - exfalso.
    apply item_split in E; try reflexivity.
    destruct E as [_ [_ E]]; discriminate.
  - rewrite <- !closed_items_more in E.
    apply closed_items_inj; [discriminate | discriminate | exact E].
Qed.

End Printing.

(** ** The task key *)

Lemma frac_neq (n n' : Z) (d d' : positive) :
  (n * Zpos d' <> n' * Zpos d)%Z -> Num.frac n d <> Num.frac n' d'.
Proof.
  intros H E; apply H.
  unfold Num.frac in E; now apply Q2Qc_eq_iff in E.
Qed.

(** C8. Two tasks whose float fields print alike at two decimals, all
    other fields being equal, have the same filename and the same hash; so
    do the tasks with tunneling 1.001 and 1.004, whose raw fields differ. *)
Theorem filename_two_decimals :
  forall (hash_key : string -> Z) (t1 t2 : KitaevHamiltonianTask),
    experiment_id t1 = experiment_id t2 ->
    n_modes t1 = n_modes t2 ->
    occupied_orbitals t1 = occupied_orbitals t2 ->
    shots t1 = shots t2 ->
    Py.format_2f (tunneling t1) = Py.format_2f (tunneling t2) ->
    Py.format_2f (superconducting t1) = Py.format_2f (superconducting t2) ->
    Py.format_2f (chemical_potential t1)
    = Py.format_2f (chemical_potential t2) ->
    (filename t1 = filename t2
     /\ task_hash hash_key t1 = task_hash hash_key t2)
    /\ (tunneling sample_task
        <> tunneling (set_tunneling sample_task double_1_004)
        /\ filename sample_task
           = filename (set_tunneling sample_task double_1_004)
        /\ task_hash hash_key sample_task
           = task_hash hash_key (set_tunneling sample_task double_1_004)).
Proof.
  intros hash_key t1 t2 He Hn Ho Hs Ht Hd Hm.
  assert (F : forall a b,
             experiment_id a = experiment_id b -> n_modes a = n_modes b ->
             occupied_orbitals a = occupied_orbitals b ->
             shots a = shots b ->
             Py.format_2f (tunneling a) = Py.format_2f (tunneling b) ->
             Py.format_2f (superconducting a)
             = Py.format_2f (superconducting b) ->
             Py.format_2f (chemical_potential a)
             = Py.format_2f (chemical_potential b) ->
             filename a = filename b).
  { intros a b Ee En Eo Es Et Ed Em; unfold filename.
    now rewrite Ee, En, Eo, Es, Et, Ed, Em. }
  split; [|split; [|split]].
  - split; [now apply F|].
    unfold task_hash; f_equal; now apply F.
  - apply frac_neq; vm_compute; discriminate.
  - apply F; reflexivity.
  - unfold task_hash; f_equal; apply F; reflexivity.
Qed.

Lemma filename_two_decimals_witness :
  let t1 := sample_task in
  let t2 := set_superconducting (set_tunneling sample_task double_1_004)
              (Num.frac 251 500) in
  (tunneling t1 <> tunneling t2 /\ superconducting t1 <> superconducting t2)
  /\ filename t1 = filename t2
  /\ task_hash sample_hash t1 = task_hash sample_hash t2.
Proof.
  intros t1 t2; split.
  - split; apply frac_neq; vm_compute; discriminate.
  - apply (@filename_two_decimals sample_hash t1 t2); reflexivity.
Defined.

(** C5 as stated fails: two tasks that differ in the single field
    [chemical_potential] (0.001 against 0.004) have the same filename. *)
Lemma filename_collision :
  chemical_potential sample_task
  <> chemical_potential (set_chemical_potential sample_task double_0_004)
  /\ filename sample_task
     = filename (set_chemical_potential sample_task double_0_004).
Proof.
  split; [apply frac_neq; vm_compute; discriminate | reflexivity].
Qed.

Lemma filename_tail_inv (t t' : KitaevHamiltonianTask) :
  occupied_orbitals t = occupied_orbitals t' ->
  filename t = filename t' ->
  ((prefix_of (experiment_id t) ++ params_part t)
     ++ "/" ++ "shots" ++ Py.str_tuple (shots t))%string
  = ((prefix_of (experiment_id t') ++ params_part t')
       ++ "/" ++ "shots" ++ Py.str_tuple (shots t'))%string.
Proof.
  intros Eo E; rewrite !filename_closed, Eo in E.
  now apply append_inv_tail in E.
Qed.

Lemma filename_params_inv (t t' : KitaevHamiltonianTask) :
  experiment_id t = experiment_id t' ->
  occupied_orbitals t = occupied_orbitals t' ->
  shots t = shots t' ->
  filename t = filename t' ->
  params_part t = params_part t'.
Proof.
  intros Ee Eo Es E.
  apply filename_tail_inv in E; [|exact Eo].
  rewrite Es, Ee in E.
  apply append_inv_tail in E.
  now apply append_inv_head in E.
Qed.

(** C5, as the code has it.  Equal fields give equal filenames and equal
    hashes, and the hash depends on the filename alone.  Changing only
    [n_modes], only [shots] or only [occupied_orbitals] changes the
    filename; changing only one float field changes the filename exactly
    when the field prints differently at two decimals. *)
Theorem filename_identity :
  forall (hash_key : string -> Z) (t t' : KitaevHamiltonianTask),
    (t = t' ->
     filename t = filename t' /\ task_hash hash_key t = task_hash hash_key t')
    /\ (filename t = filename t' ->
        task_hash hash_key t = task_hash hash_key t')
    /\ (forall n, n <> n_modes t -> filename (set_n_modes t n) <> filename t)
    /\ (forall s, s <> shots t -> filename (set_shots t s) <> filename t)
    /\ (forall o, o <> occupied_orbitals t ->
          filename (set_occupied_orbitals t o) <> filename t)
    /\ (forall v, filename (set_tunneling t v) = filename t
                  <-> Py.format_2f v = Py.format_2f (tunneling t))
    /\ (forall v, filename (set_superconducting t v) = filename t
                  <-> Py.format_2f v = Py.format_2f (superconducting t))
    /\ (forall v, filename (set_chemical_potential t v) = filename t
                  <-> Py.format_2f v = Py.format_2f (chemical_potential t)).
Proof.
  intros hash_key t t'.
  split; [intros ->; split; reflexivity|].
  split; [intros E; unfold task_hash; now rewrite E|].
  split; [|split; [|split; [|split; [|split]]]].
  - intros n Hn E; apply Hn.
    apply filename_params_inv in E; try reflexivity.
    unfold params_part in E; cbn [set_n_modes n_modes tunneling superconducting
                                    chemical_potential] in E.
    injection E as E.
    apply append_inv_tail in E; now apply str_int_inj.
  - intros s Hs E; apply Hs.
    apply filename_tail_inv in E; [|reflexivity].
    apply append_inv_head in E.
    injection E as E; now apply str_tuple_inj.
  - intros o Ho E; apply Ho.
    rewrite !filename_closed in E.
    apply append_inv_head in E.
    injection E as E; now apply str_tuple_inj.
  - intros v; split; intros E.
    + apply filename_params_inv in E; try reflexivity.
      unfold params_part in E; cbn [set_tunneling n_modes tunneling
                                      superconducting chemical_potential] in E.
      injection E as E.
      apply append_inv_head in E; injection E as E.
      now apply append_inv_tail in E.
    + unfold filename, set_tunneling; cbn; now rewrite E.
  - intros v; split; intros E.
    + apply filename_params_inv in E; try reflexivity.
      unfold params_part in E; cbn [set_superconducting n_modes tunneling
                                      superconducting chemical_potential] in E.
      injection E as E.
      apply append_inv_head in E; injection E as E.
      apply append_inv_head in E.
      change ("_Delta" ++ ?x)%string with x in E.
      cbn [append] in E; injection E as E.
      now apply append_inv_tail in E.
    + unfold filename, set_superconducting; cbn; now rewrite E.
  - intros v; split; intros E.
    + apply filename_params_inv in E; try reflexivity.
      unfold params_part in E; cbn [set_chemical_potential n_modes tunneling
                                      superconducting chemical_potential] in E.
      injection E as E.
      do 2 (apply append_inv_head in E; cbn [append] in E; injection E as E).
      apply append_inv_head in E; cbn [append] in E; injection E as E.
      exact E.
    + unfold filename, set_chemical_potential; cbn; now rewrite E.
Qed.

Lemma filename_identity_witness :
  filename (set_shots sample_task [20000%Z]) <> filename sample_task
  /\ filename (set_n_modes sample_task 5) <> filename sample_task
  /\ filename (set_tunneling sample_task double_1_004) = filename sample_task.
Proof.
  destruct (filename_identity sample_hash sample_task sample_task)
    as (_ & _ & Hn & Hs & _ & Ht & _).
  split; [apply Hs; discriminate|].
  split; [apply Hn; discriminate|].
  apply Ht; reflexivity.
Defined.

(** * Further properties *)

(** ** The Kitaev matrices and their BdG matrix *)

Lemma kitaev_hamiltonian_tables (n : Z) (t Delta mu : Qc) :
  (0 < n)%Z ->
  kitaev_hamiltonian n t Delta mu
  = Ok (mkQuadraticHamiltonian
          (table (Z.to_nat n) (Z.to_nat n)
             (fun i j =>
                (- t * (superdiag i j + subdiag i j) + mu * kronecker i j)%Qc))
          (table (Z.to_nat n) (Z.to_nat n)
             (fun i j => (Delta * (superdiag i j - subdiag i j))%Qc))).
Proof.
  intros Hn; unfold kitaev_hamiltonian.
  replace (n <? 1)%Z with false by (symmetry; apply Z.ltb_ge; lia).
  replace (Z.to_nat n) with (S (Z.to_nat (n - 1))) by lia.
  rewrite diag_ones_upper, diag_ones_lower; unfold Np.eye.
  now rewrite !ew2_table, !ew1_table, !ew2_table.
Qed.

Lemma kronecker_sym (i j : nat) : kronecker i j = kronecker j i.
Proof. unfold kronecker; now rewrite Nat.eqb_sym. Qed.

(** X1. The hermitian part [kitaev_hamiltonian] builds equals its own
    transpose, and the transpose of the antisymmetric part is its
    negation. *)
Theorem kitaev_hamiltonian_symmetry :
  forall (n : Z) (t Delta mu : Qc),
    (0 < n)%Z ->
    exists H A : matrix Qc,
      kitaev_hamiltonian n t Delta mu = Ok (mkQuadraticHamiltonian H A)
      /\ transpose 0%Qc H = H
      /\ transpose 0%Qc A = ew1 Qcopp A.
Proof.
  intros n t Delta mu Hn.
  eexists; eexists; split; [now apply kitaev_hamiltonian_tables|].
  rewrite !transpose_table, ew1_table; split;
    apply table_ext; intros i j Hi Hj.
  - rewrite (kronecker_sym j i).
    change (superdiag j i) with (subdiag i j).
    change (subdiag j i) with (superdiag i j).
    ring.
  - change (superdiag j i) with (subdiag i j).
    change (subdiag j i) with (superdiag i j).
    ring.
Qed.

Lemma kitaev_hamiltonian_symmetry_witness :
  exists H A : matrix Qc,
    kitaev_hamiltonian 5 (Num.frac 3 2) (Num.frac 1 4) (Num.frac (-2) 1)
    = Ok (mkQuadraticHamiltonian H A)
    /\ transpose 0%Qc H = H
    /\ transpose 0%Qc A = ew1 Qcopp A.
Proof.
  apply (@kitaev_hamiltonian_symmetry 5 (Num.frac 3 2) (Num.frac 1 4)
           (Num.frac (-2) 1)).
  reflexivity.
Defined.

Lemma Copp_Copp (c : Num.C) : Num.Copp (Num.Copp c) = c.
Proof.
  destruct c as [a b]; unfold Num.Copp; simpl.
  now rewrite !Qcopp_involutive.
Qed.

Lemma conj_of_real (a : Qc) : Num.conj (Num.of_real a) = Num.of_real a.
Proof. unfold Num.conj, Num.of_real; cbn [Num.re Num.im]; f_equal; ring. Qed.

Lemma Copp_of_real (a : Qc) :
  Num.Copp (Num.of_real a) = Num.of_real (- a)%Qc.
Proof. unfold Num.Copp, Num.of_real; cbn [Num.re Num.im]; f_equal; ring. Qed.

Lemma bdg_table_hermitian (n : nat) (h a : nat -> nat -> Num.C) :
  (forall i j, i < n -> j < n -> h i j = Num.conj (h j i)) ->
  (forall i j, i < n -> j < n -> a j i = Num.Copp (a i j)) ->
  table (n + n) (n + n) (bdg_entry n h a)
  = conj_transpose (table (n + n) (n + n) (bdg_entry n h a)).
Proof.
  intros Hh Ha; rewrite conj_transpose_table.
  apply table_ext; intros i j Hi Hj; unfold bdg_entry.
  destruct (Nat.ltb_spec i n) as [Li|Li];
    destruct (Nat.ltb_spec j n) as [Lj|Lj].
  - rewrite (Hh j i) by lia; now rewrite conj_Copp, !conj_conj.
  - rewrite (Ha i (j - n)) by lia; now rewrite conj_Copp.
  - rewrite (Ha j (i - n)) by lia; now rewrite conj_Copp, conj_conj.
  - apply Hh; lia.
Qed.

(** X2. [bdg_hamiltonian] applied to the Hamiltonian
    [kitaev_hamiltonian] returns, read as a complex array, succeeds: the
    result is a [2n x 2n] array that equals its own conjugate transpose and
    whose entries are all real. *)
Theorem bdg_of_kitaev_hermitian :
  forall (n : Z) (t Delta mu : Qc),
    (0 < n)%Z ->
    exists (hamiltonian : QuadraticHamiltonian Qc) (M : matrix Num.C),
      kitaev_hamiltonian n t Delta mu = Ok hamiltonian
      /\ bdg_hamiltonian (astype_complex hamiltonian) = Ok M
      /\ shape (2 * Z.to_nat n) (2 * Z.to_nat n) M
      /\ M = conj_transpose M
      /\ forall i j, i < 2 * Z.to_nat n -> j < 2 * Z.to_nat n ->
           Num.im (entry Num.C0 M i j) = 0%Qc.
Proof.
  intros n t Delta mu Hn.
  eexists; eexists; split; [now apply kitaev_hamiltonian_tables|].
  unfold astype_complex; cbn [hermitian_part antisymmetric_part].
  rewrite !ew1_table, bdg_hamiltonian_of_tables.
  replace (2 * Z.to_nat n) with (Z.to_nat n + Z.to_nat n) by lia.
  split; [reflexivity|].
  split; [apply table_shape|].
  split.
  - apply bdg_table_hermitian; intros i j Hi Hj.
    + rewrite conj_of_real; f_equal.
      rewrite (kronecker_sym j i).
      change (superdiag j i) with (subdiag i j).
      change (subdiag j i) with (superdiag i j).
      ring.
    + rewrite Copp_of_real; f_equal.
      change (superdiag j i) with (subdiag i j).
      change (subdiag j i) with (superdiag i j).
      ring.
  - intros i j Hi Hj; rewrite entry_table by assumption.
    unfold bdg_entry.
    destruct (i <? Z.to_nat n); destruct (j <? Z.to_nat n);
      cbn [Num.Copp Num.conj Num.of_real Num.re Num.im]; ring.
Qed.

Lemma bdg_of_kitaev_hermitian_witness :
  exists (hamiltonian : QuadraticHamiltonian Qc) (M : matrix Num.C),
    kitaev_hamiltonian 3 1%Qc (Num.frac 1 2) (Num.frac (-1) 4)
    = Ok hamiltonian
    /\ bdg_hamiltonian (astype_complex hamiltonian) = Ok M
    /\ shape 6 6 M
    /\ M = conj_transpose M.
Proof.
  destruct (@bdg_of_kitaev_hermitian 3 1%Qc (Num.frac 1 2) (Num.frac (-1) 4)
              ltac:(reflexivity)) as [h [M [E1 [E2 [E3 [E4 _]]]]]].
  exists h, M.
  split; [exact E1 | split; [exact E2 | split; [exact E3 | exact E4]]].
Defined.

(** X3. The array [bdg_hamiltonian] returns has the particle-hole
    symmetry of its block layout: exchanging the two halves of the rows and
    of the columns gives the negated conjugate of the array. *)
Theorem bdg_hamiltonian_particle_hole :
  forall (n : nat) (H A : matrix Num.C),
    shape n n H -> shape n n A ->
    exists M : matrix Num.C,
      bdg_hamiltonian (mkQuadraticHamiltonian H A) = Ok M
      /\ forall i j, i < 2 * n -> j < 2 * n ->
           entry Num.C0 M ((i + n) mod (2 * n)) ((j + n) mod (2 * n))
           = Num.Copp (Num.conj (entry Num.C0 M i j)).
Proof.
  intros n H A HH HA.
  eexists; split; [exact (bdg_hamiltonian_table HH HA)|].
  intros i j Hi Hj.
  assert (Hm : forall k, k < 2 * n ->
             (k + n) mod (2 * n) = if k <? n then k + n else k - n).
  { intros k Hk; destruct (Nat.ltb_spec k n) as [L|L].
    - apply Nat.mod_small; lia.
    - symmetry; apply Nat.mod_unique with (q := 1); lia. }
  rewrite (Hm i Hi), (Hm j Hj).
  rewrite !entry_table by
    (try lia;
     match goal with
     | |- (if ?k <? n then _ else _) < _ =>
         destruct (Nat.ltb_spec k n); lia
     end).
  unfold bdg_entry.
  destruct (Nat.ltb_spec i n) as [Li|Li];
    destruct (Nat.ltb_spec j n) as [Lj|Lj];
    repeat match goal with
           | |- context [?a + n <? n] =>
               replace (a + n <? n) with false
                 by (symmetry; apply Nat.ltb_ge; lia)
           | |- context [?a - n <? n] =>
               replace (a - n <? n) with true
                 by (symmetry; apply Nat.ltb_lt; lia)
           end;
    rewrite ?Nat.add_sub, ?conj_Copp, ?conj_conj, ?Copp_Copp; reflexivity.
Qed.

Lemma bdg_hamiltonian_particle_hole_witness :
  let H := [ [Num.mkC 1%Qc 0%Qc; Num.mkC 0%Qc (Num.frac 1 2)];
             [Num.mkC 0%Qc (Num.frac (-1) 2); Num.mkC 1%Qc 0%Qc] ] in
  let A := [ [Num.C0; Num.mkC (Num.frac 1 3) 1%Qc];
             [Num.mkC (Num.frac (-1) 3) 0%Qc; Num.C0] ] in
  exists M : matrix Num.C,
    bdg_hamiltonian (mkQuadraticHamiltonian H A) = Ok M
    /\ entry Num.C0 M 2 1 = Num.Copp (Num.conj (entry Num.C0 M 0 3)).
Proof.
  intros H A.
  assert (HH : shape 2 2 H) by (split; [reflexivity | repeat constructor]).
  assert (HA : shape 2 2 A) by (split; [reflexivity | repeat constructor]).
  destruct (bdg_hamiltonian_particle_hole HH HA) as [M [E HM]].
  exists M; split; [exact E|].
  apply (HM 0 3); lia.
Defined.

(** X4. When the two parts are square arrays of different sizes,
    [bdg_hamiltonian] raises [ValueError]. *)
Theorem bdg_hamiltonian_size_mismatch :
  forall (n m : nat) (H A : matrix Num.C),
    shape n n H -> shape m m A -> n <> m ->
    bdg_hamiltonian (mkQuadraticHamiltonian H A) = Raise ValueError.
Proof.
  intros n m H A [HH _] [HA _] Hnm.
  unfold bdg_hamiltonian, Np.block, hstack, nrows, ew1.
  cbn [hermitian_part antisymmetric_part].
  rewrite !length_map, HH, HA.
  now replace (n =? m) with false by (symmetry; now apply Nat.eqb_neq).
Qed.

Lemma bdg_hamiltonian_size_mismatch_witness :
  bdg_hamiltonian
    (mkQuadraticHamiltonian
       [ [Num.C0; Num.C0]; [Num.C0; Num.C0] ] [ [Num.C0] ])
  = Raise ValueError.
Proof.
  apply (@bdg_hamiltonian_size_mismatch 2 1).
  - split; [reflexivity | repeat constructor].
  - split; [reflexivity | repeat constructor].
  - discriminate.
Defined.

(** ** The state expectation *)

Lemma Cmul_comm (a b : Num.C) : Num.Cmul a b = Num.Cmul b a.
Proof. unfold Num.Cmul; f_equal; ring. Qed.

Lemma Cmul_C0_r (a : Num.C) : Num.Cmul a Num.C0 = Num.C0.
Proof. unfold Num.Cmul, Num.C0; cbn [Num.re Num.im]; f_equal; ring. Qed.

Lemma Cmul_C0_l (a : Num.C) : Num.Cmul Num.C0 a = Num.C0.
Proof. unfold Num.Cmul, Num.C0; cbn [Num.re Num.im]; f_equal; ring. Qed.

Lemma Cmul_1_r (a : Num.C) : Num.Cmul a (Num.of_real 1%Qc) = a.
Proof.
  destruct a as [r i]; unfold Num.Cmul, Num.of_real; cbn [Num.re Num.im].
  f_equal; ring.
Qed.

Lemma Cmul_1_l (a : Num.C) : Num.Cmul (Num.of_real 1%Qc) a = a.
Proof. rewrite Cmul_comm; apply Cmul_1_r. Qed.

Lemma conj_C0 : Num.conj Num.C0 = Num.C0.
Proof. unfold Num.conj, Num.C0; cbn [Num.re Num.im]; f_equal; ring. Qed.

Lemma fold_left_Cadd (l : list Num.C) (a : Num.C) :
  fold_left Num.Cadd l a = Num.Cadd a (Csum l).
Proof.
  revert a; induction l as [|c l IH]; intros a; simpl.
  - now rewrite Cadd_C0_r.
  - now rewrite IH, Cadd_assoc.
Qed.

Lemma Csum_app (l l' : list Num.C) :
  Csum (l ++ l') = Num.Cadd (Csum l) (Csum l').
Proof.
  induction l as [|c l IH]; simpl; [now rewrite Cadd_C0_l|].
  now rewrite IH, Cadd_assoc.
Qed.

Lemma Csum_zero {A : Type} (f : A -> Num.C) (l : list A) :
  (forall a, In a l -> f a = Num.C0) -> Csum (map f l) = Num.C0.
Proof.
  induction l as [|a l IH]; intros H; simpl; [reflexivity|].
  rewrite (H a) by now left.
  rewrite IH by (intros b Hb; apply H; now right).
  apply Cadd_C0_l.
Qed.

Lemma Csum_ext {A : Type} (f g : A -> Num.C) (l : list A) :
  (forall a, In a l -> f a = g a) -> Csum (map f l) = Csum (map g l).
Proof. intros H; f_equal; now apply map_ext_in. Qed.

Lemma list_as_map_nth {A : Type} (d : A) (l : list A) :
  l = map (fun i => nth i l d) (seq 0 (length l)).
Proof.
  apply nth_ext with (d := d) (d' := d).
  - now rewrite length_map, length_seq.
  - intros i Hi.
    rewrite (@nth_indep _ (map (fun i => nth i l d) (seq 0 (length l))) i d
               ((fun i => nth i l d) 0))
      by (rewrite length_map, length_seq; exact Hi).
    now rewrite (map_nth (fun i => nth i l d)), seq_nth.
Qed.

Lemma Cdot_sum (n : nat) (f : nat -> Num.C) (v : list Num.C) :
  length v = n ->
  Cdot (map f (seq 0 n)) v
  = Csum (map (fun j => Num.Cmul (f j) (nth j v Num.C0)) (seq 0 n)).
Proof.
  intros Hv; unfold Cdot.
  rewrite fold_left_Cadd, Cadd_C0_l.
  rewrite (list_as_map_nth Num.C0 v) at 1.
  now rewrite Hv, map2_map.
Qed.

Lemma expectation_sum (n : nat) (operator : matrix Num.C)
    (state : list Num.C) :
  shape n n operator -> length state = n ->
  expectation operator state
  = Ok (Csum
          (map (fun i =>
                  Num.Cmul (Num.conj (nth i state Num.C0))
                    (Csum
                       (map (fun j =>
                               Num.Cmul (entry Num.C0 operator i j)
                                 (nth j state Num.C0))
                          (seq 0 n))))
             (seq 0 n))).
Proof.
  intros HO Hs; unfold expectation, matmul_vec.
  replace (forallb (fun row => length row =? length state) operator)
    with true.
  2:{ symmetry; apply forallb_forall; intros row Hr.
      destruct HO as [_ HO]; rewrite Forall_forall in HO.
      rewrite (HO row Hr), Hs; apply Nat.eqb_refl. }
  cbv beta iota; cbn [bind]; unfold vdot.
  rewrite length_map, (proj1 HO), Hs, Nat.eqb_refl; f_equal.
  rewrite fold_left_Cadd, Cadd_C0_l; f_equal.
  rewrite (shape_table Num.C0 HO) at 1.
  unfold table; rewrite map_map.
  rewrite (list_as_map_nth Num.C0 state) at 1.
  rewrite Hs, map2_map.
  apply map_ext; intros i; f_equal.
  now apply Cdot_sum.
Qed.

Lemma Csum_delta (g : nat -> Num.C) (n k : nat) :
  k < n ->
  Csum (map (fun j => if j =? k then g j else Num.C0) (seq 0 n)) = g k.
Proof.
  induction n as [|n IH]; intros Hk; [lia|].
  rewrite seq_S, map_app, Csum_app; cbn [map Csum fold_right Nat.add].
  destruct (Nat.eq_dec k n) as [->|Hne].
  - rewrite Nat.eqb_refl, Cadd_C0_r.
    rewrite Csum_zero; [apply Cadd_C0_l|].
    intros j Hj; apply in_seq in Hj.
    now replace (j =? n) with false by (symmetry; apply Nat.eqb_neq; lia).
  - replace (n =? k) with false by (symmetry; apply Nat.eqb_neq; lia).
    rewrite !Cadd_C0_r; apply IH; lia.
Qed.

Lemma nth_basis_state (n k i : nat) :
  i < n ->
  nth i (basis_state n k) Num.C0
  = if i =? k then Num.of_real 1%Qc else Num.C0.
Proof.
  intros Hi; unfold basis_state.
  rewrite (@nth_indep _ _ i Num.C0
             ((fun i => if i =? k then Num.of_real 1%Qc else Num.C0) 0))
    by (rewrite length_map, length_seq; exact Hi).
  now rewrite (map_nth (fun i => if i =? k then Num.of_real 1%Qc
                                 else Num.C0)), seq_nth.
Qed.

(** X6. On the [k]-th basis state, [expectation] returns the [k]-th
    diagonal entry of the operator. *)
Theorem expectation_basis_state :
  forall (n k : nat) (operator : matrix Num.C),
    shape n n operator -> k < n ->
    expectation operator (basis_state n k)
    = Ok (entry Num.C0 operator k k).
Proof.
  intros n k operator HO Hk.
  assert (Hs : length (basis_state n k) = n)
    by (unfold basis_state; now rewrite length_map, length_seq).
  rewrite (@expectation_sum n operator (basis_state n k) HO Hs); f_equal.
  rewrite <- (Csum_delta (fun i => entry Num.C0 operator i k) Hk).
  apply Csum_ext; intros i Hi; apply in_seq in Hi.
  rewrite nth_basis_state by lia.
  assert (Hin : Csum (map (fun j =>
                             Num.Cmul (entry Num.C0 operator i j)
                               (nth j (basis_state n k) Num.C0))
                        (seq 0 n))
                = entry Num.C0 operator i k).
  { rewrite <- (Csum_delta (fun j => entry Num.C0 operator i j) Hk).
    apply Csum_ext; intros j Hj; apply in_seq in Hj.
    rewrite nth_basis_state by lia.
    destruct (j =? k); [apply Cmul_1_r | apply Cmul_C0_r]. }
  rewrite Hin.
  destruct (i =? k).
  - now rewrite conj_of_real, Cmul_1_l.
  - now rewrite conj_C0, Cmul_C0_l.
Qed.

Lemma expectation_basis_state_witness :
  let operator :=
    [ [Num.mkC 1%Qc 0%Qc; Num.mkC 0%Qc (Num.frac 1 2)];
      [Num.mkC 0%Qc (Num.frac (-1) 2); Num.mkC (Num.frac 7 3) 1%Qc] ] in
  expectation operator (basis_state 2 1) = Ok (Num.mkC (Num.frac 7 3) 1%Qc).
Proof.
  intros operator.
  apply (@expectation_basis_state 2 1 operator).
  - split; [reflexivity | repeat constructor].
  - lia.
Defined.

(** X7. For a square operator and a state of another length,
    [expectation] raises [ValueError]. *)
Theorem expectation_size_mismatch :
  forall (n : nat) (operator : matrix Num.C) (state : list Num.C),
    shape n n operator -> length state <> n ->
    expectation operator state = Raise ValueError.
Proof.
  intros n operator state [Hn HO] Hs; unfold expectation, matmul_vec.
  destruct operator as [|row rows].
  - cbn [forallb map bind]; unfold vdot.
    simpl in Hn; subst n; cbn [length].
    now replace (length state =? 0) with false
      by (symmetry; now apply Nat.eqb_neq).
  - apply Forall_inv in HO; cbn [forallb]; rewrite HO.
    now replace (n =? length state) with false
      by (symmetry; apply Nat.eqb_neq; congruence).
Qed.

Lemma expectation_size_mismatch_witness :
  expectation
    [ [Num.C0; Num.C0]; [Num.C0; Num.C0] ]
    [Num.of_real 1%Qc; Num.C0; Num.C0]
  = Raise ValueError.
Proof.
  apply (@expectation_size_mismatch 2).
  - split; [reflexivity | repeat constructor].
  - discriminate.
Defined.

(** ** More on the edge-correlation estimator *)

Lemma sign_pow_parity (p : nat) :
  sign_pow p = if Nat.even p then 1%Z else (-1)%Z.
Proof.
  induction p as [|p IH]; [reflexivity|].
  rewrite sign_pow_succ, IH, Nat.even_succ, <- Nat.negb_even.
  now destruct (Nat.even p).
Qed.

Lemma odd_shots_cons (item : string * Z) (counts : Counts) :
  odd_shots (item :: counts)
  = ((if Nat.odd (ones_in (fst item)) then snd item else 0)
     + odd_shots counts)%Z.
Proof.
  unfold odd_shots; cbn [filter].
  now destruct (Nat.odd (ones_in (fst item))).
Qed.

Lemma even_shots_cons (item : string * Z) (counts : Counts) :
  even_shots (item :: counts)
  = ((if Nat.even (ones_in (fst item)) then snd item else 0)
     + even_shots counts)%Z.
Proof.
  unfold even_shots; cbn [filter].
  now destruct (Nat.even (ones_in (fst item))).
Qed.

Lemma edge_terms_parity (counts : Counts) :
  Zsum (edge_terms counts) = (odd_shots counts - even_shots counts)%Z
  /\ Zsum (map snd counts) = (odd_shots counts + even_shots counts)%Z.
Proof.
  induction counts as [|item counts [IH1 IH2]]; [now split|].
  rewrite odd_shots_cons, even_shots_cons.
  change (Zsum (edge_terms (item :: counts)))
    with (- (sign_pow (ones_in (fst item)) * snd item)
          + Zsum (edge_terms counts))%Z.
  change (Zsum (map snd (item :: counts)))
    with (snd item + Zsum (map snd counts))%Z.
  rewrite IH1, IH2, sign_pow_parity, <- Nat.negb_even.
  destruct (Nat.even (ones_in (fst item))); cbn [negb]; split; lia.
Qed.

(** X9. With a non-zero total and absolute counts summing to at most
    [2^53], [compute_measure_edge_correlation] returns the double nearest to
    the shots of odd parity minus the shots of even parity, over all
    shots. *)
Theorem edge_correlation_odd_minus_even :
  forall counts : Counts,
    total counts <> 0%Z -> (magnitude counts <= 2 ^ 53)%Z ->
    compute_measure_edge_correlation counts
    = Ok (F64.round
            ((Num.of_int (odd_shots counts) - Num.of_int (even_shots counts))
             / Num.of_int (odd_shots counts + even_shots counts))%Qc).
Proof.
  intros counts HT HM.
  destruct (edge_terms_parity counts) as [E1 E2].
  rewrite edge_correlation_closed by assumption.
  rewrite total_Zsum, E1, E2; do 3 f_equal.
  replace (odd_shots counts - even_shots counts)%Z
    with (odd_shots counts + - even_shots counts)%Z by lia.
  now rewrite of_int_add, of_int_opp.
Qed.

Lemma edge_correlation_odd_minus_even_witness :
  let counts := [("0100"%string, 7%Z); ("0110"%string, 3%Z)] in
  compute_measure_edge_correlation counts
  = Ok (F64.round ((Num.of_int 7 - Num.of_int 3) / Num.of_int (7 + 3))%Qc).
Proof.
  intros counts.
  apply (@edge_correlation_odd_minus_even counts).
  - vm_compute; discriminate.
  - vm_compute; discriminate.
Defined.

Lemma Zsum_permutation (l l' : list Z) :
  Permutation l l' -> Zsum l = Zsum l'.
Proof. induction 1; simpl; lia. Qed.

(** X11. As long as the absolute counts sum to at most [2^53], the value
    [compute_measure_edge_correlation] returns, or the exception it raises,
    does not depend on the order in which the mapping yields its items. *)
Theorem edge_correlation_order_free :
  forall c1 c2 : Counts,
    Permutation c1 c2 -> (magnitude c1 <= 2 ^ 53)%Z ->
    compute_measure_edge_correlation c1
    = compute_measure_edge_correlation c2.
Proof.
  intros c1 c2 HP HM.
  assert (ET : total c1 = total c2).
  { rewrite !total_Zsum.
    exact (Zsum_permutation (Permutation_map snd HP)). }
  assert (EM : magnitude c1 = magnitude c2).
  { unfold magnitude.
    exact (Zsum_permutation
             (Permutation_map (fun item => Z.abs (snd item)) HP)). }
  destruct (Z.eq_dec (total c1) 0) as [Z0 | N0].
  - rewrite !edge_correlation_zero by congruence; reflexivity.
  - rewrite !edge_correlation_closed by congruence.
    rewrite ET; unfold edge_terms.
    now rewrite (Zsum_permutation
                   (Permutation_map
                      (fun item =>
                         (- (sign_pow (ones_in (fst item)) * snd item))%Z)
                      HP)).
Qed.

Lemma edge_correlation_order_free_witness :
  compute_measure_edge_correlation
    [("0100"%string, 7%Z); ("0110"%string, 3%Z); ("0000"%string, 2%Z)]
  = compute_measure_edge_correlation
      [("0000"%string, 2%Z); ("0100"%string, 7%Z); ("0110"%string, 3%Z)].
Proof.
  apply edge_correlation_order_free.
  - apply Permutation_sym, (Permutation_cons_app [_; _] []).
    apply Permutation_refl.
  - vm_compute; discriminate.
Defined.

(** X22. Past [2^53] the order of the items matters: the items
    [('1', 2^53)], [('111', 1)], [('11111', 1)] give [1 - 2^-52] in this
    order, the two additions of 1 being rounded away, and [1.0] when the
    large count comes last. *)
Theorem edge_correlation_order_matters :
  let c1 := [("1"%string, (2 ^ 53)%Z); ("111"%string, 1%Z);
             ("11111"%string, 1%Z)] in
  let c2 := [("111"%string, 1%Z); ("11111"%string, 1%Z);
             ("1"%string, (2 ^ 53)%Z)] in
  Permutation c1 c2
  /\ compute_measure_edge_correlation c1
     = Ok (F64.Fin (Num.frac (2 ^ 52 - 1) (2 ^ 52)))
  /\ compute_measure_edge_correlation c2 = Ok (F64.Fin 1%Qc).
Proof.
  intros c1 c2.
  split; [apply (Permutation_cons_app [_; _] []), Permutation_refl|].
  split.
  - apply same_double_result; vm_compute; reflexivity.
  - apply same_double_result; vm_compute; reflexivity.
Qed.

(** ** More on the Hamiltonian estimator *)


Lemma for_each_ext {S A : Type} (body body' : S -> A -> result S)
    (l : list A) (s : S) :
  (forall a s', In a l -> body s' a = body' s' a) ->
  for_each body l s = for_each body' l s.
Proof.
  revert s; induction l as [|a l IH]; intros s H; simpl; [reflexivity|].
  rewrite (H a s) by now left.
  destruct (body' s a) as [s'|e]; cbn [bind]; [|reflexivity].
  apply IH; intros b s'' Hb; apply H; now right.
Qed.

Lemma map_snd_combine {A B : Type} (l : list A) (l' : list B) :
  length l = length l' -> map snd (combine l l') = l'.
Proof.
  revert l'; induction l as [|a l IH]; intros [|b l'] H; simpl in *;
    try discriminate; [reflexivity|].
  f_equal; apply IH; lia.
Qed.

Lemma identity_loop (counts_z counts_x : Counts) (shots_z shots_x : Z)
    (terms : list (Pauli.t * C128.t)) (acc : C128.t) :
  Forall (fun tc => ~ nonidentity tc) terms ->
  for_each (hamiltonian_body counts_z counts_x shots_z shots_x) terms acc
  = Ok (fold_left C128.add (map snd terms) acc).
Proof.
  intros HT; revert acc; induction HT as [|tc terms Hn _ IH]; intros acc;
    [reflexivity|].
  cbn [for_each map fold_left].
  unfold hamiltonian_body at 1; unfold nonidentity in Hn.
  destruct (np_any (Pauli.z (fst tc))); [now elim Hn|].
  destruct (np_any (Pauli.x (fst tc))); [now elim Hn|].
  cbn [bind]; apply IH.
Qed.

(** X12. On a Hamiltonian whose terms all have neither a Z nor an X
    factor, [compute_measure_hamiltonian] returns the real part of the
    running complex128 sum of the coefficients, taken from 0 in the order of
    the terms, whatever the two count mappings hold (empty ones
    included). *)
Theorem compute_measure_hamiltonian_identity :
  forall (counts_z counts_x : Counts) (hamiltonian : SparsePauliOp),
    length (paulis hamiltonian) = length (coeffs hamiltonian) ->
    Forall (fun term => np_any (Pauli.z term) = false
                        /\ np_any (Pauli.x term) = false)
      (paulis hamiltonian) ->
    compute_measure_hamiltonian counts_z counts_x hamiltonian
    = Ok (C128.re (complex_sum (coeffs hamiltonian))).
Proof.
  intros counts_z counts_x hamiltonian HL HT.
  unfold compute_measure_hamiltonian.
  rewrite identity_loop.
  - cbn [bind]; now rewrite map_snd_combine.
  - apply Forall_forall; intros [term coeff] Hin.
    apply in_combine_l in Hin.
    rewrite Forall_forall in HT; destruct (HT term Hin) as [Hz Hx].
    unfold nonidentity; cbn [fst]; rewrite Hz, Hx; discriminate.
Qed.

Lemma compute_measure_hamiltonian_identity_witness :
  compute_measure_hamiltonian [] [("011"%string, 0%Z)]
    (mkSparsePauliOp
       [ Pauli.mk [false; false] [false; false];
         Pauli.mk [false; false] [false; false];
         Pauli.mk [false; false] [false; false] ]
       [ C128.of_real (F64.round (Num.frac 1 10));
         C128.of_real (F64.round (Num.frac 2 10));
         C128.of_real (F64.round (Num.frac 3 10)) ])
  = Ok (C128.re
          (complex_sum
             [ C128.of_real (F64.round (Num.frac 1 10));
               C128.of_real (F64.round (Num.frac 2 10));
               C128.of_real (F64.round (Num.frac 3 10)) ])).
Proof.
  apply compute_measure_hamiltonian_identity.
  - reflexivity.
  - repeat constructor.
Defined.






Lemma flagged_ones_all (nq : nat) (bitstring : string) :
  String.length bitstring <= nq ->
  flagged_ones (repeat true nq) bitstring = ones_in bitstring.
Proof.
  revert nq; induction bitstring as [|b rest IH]; intros nq Hl.
  - unfold flagged_ones; simpl; now destruct (repeat true nq).
  - destruct nq as [|nq]; simpl in Hl; [lia|].
    specialize (IH nq ltac:(lia)).
    unfold flagged_ones in *; simpl.
    destruct (Ascii.eqb b "1"); simpl; now rewrite IH.
Qed.

(** the two accumulators mirror each other: the one of the edge estimator
    is the negation of the one of the all-Z term *)
Lemma mirrored_loops (nq : nat) (counts : Counts) (a : F64.t) :
  fits nq counts ->
  fold_left
    (fun acc item =>
       F64.sub acc (F64.of_Z (sign_pow (ones_in (fst item)) * snd item)))
    counts (F64.neg a)
  = F64.neg
      (fold_left (fun acc w => F64.add acc (F64.of_Z w))
         (map (fun item =>
                 (sign_pow (flagged_ones (repeat true nq) (fst item))
                  * snd item)%Z)
            counts)
         a).
Proof.
  intros Hf; revert a; induction Hf as [|item counts Hl _ IH]; intros a;
    [reflexivity|].
  cbn [fold_left map].
  rewrite flagged_ones_all by exact Hl.
  rewrite <- IH; f_equal.
  unfold F64.sub; now rewrite f64_add_neg.
Qed.

(** X15. On the one-term Hamiltonian [-1 * Z...Z], whose Z mask covers
    every bit, [compute_measure_hamiltonian] returns what
    [compute_measure_edge_correlation] returns on the same counts, and
    raises [ZeroDivisionError] when it does. *)
Theorem edge_correlation_as_hamiltonian :
  forall (nq : nat) (counts counts_x : Counts) (x_mask : list bool),
    0 < nq -> fits nq counts ->
    compute_measure_hamiltonian counts counts_x
      (mkSparsePauliOp [Pauli.mk (repeat true nq) x_mask]
         [C128.of_real (F64.Fin (- (1))%Qc)])
    = compute_measure_edge_correlation counts.
Proof.
  intros nq counts counts_x x_mask Hq Hf.
  unfold compute_measure_edge_correlation.
  change (F64.Fin 0%Qc) with (F64.neg (F64.Fin 0%Qc)) at 1.
  rewrite (mirrored_loops (F64.Fin 0%Qc) Hf).
  unfold compute_measure_hamiltonian; cbn [paulis coeffs combine for_each].
  unfold hamiltonian_body; cbn [fst snd Pauli.z].
  replace (np_any (repeat true nq)) with true
    by (destruct nq; [lia | reflexivity]).
  unfold term_expectation.
  rewrite term_loop_ok by (now rewrite repeat_length).
  cbn [bind]; unfold F64.py_div.
  destruct (total counts =? 0)%Z; cbn [bind]; [reflexivity|].
  f_equal; rewrite f64_div_neg.
  apply minus_one_times, div_double.
Qed.

Lemma edge_correlation_as_hamiltonian_witness :
  let counts := [("0100"%string, 7%Z); ("0110"%string, 3%Z)] in
  compute_measure_hamiltonian counts []
    (mkSparsePauliOp [Pauli.mk (repeat true 4) (repeat false 4)]
       [C128.of_real (F64.Fin (- (1))%Qc)])
  = compute_measure_edge_correlation counts.
Proof.
  intros counts.
  apply (@edge_correlation_as_hamiltonian 4 counts [] (repeat false 4)).
  - lia.
  - repeat constructor.
Defined.

(** X16. When every term has a Z factor, [counts_x] is never read: any
    two choices of it give the same result.  When no term has a Z factor,
    [counts_z] is never read. *)
Theorem compute_measure_hamiltonian_unread_counts :
  forall (counts_z counts_x counts' : Counts) (hamiltonian : SparsePauliOp),
    (Forall (fun term => np_any (Pauli.z term) = true)
       (paulis hamiltonian) ->
     compute_measure_hamiltonian counts_z counts_x hamiltonian
     = compute_measure_hamiltonian counts_z counts' hamiltonian)
    /\ (Forall (fun term => np_any (Pauli.z term) = false)
          (paulis hamiltonian) ->
        compute_measure_hamiltonian counts_z counts_x hamiltonian
        = compute_measure_hamiltonian counts' counts_x hamiltonian).
Proof.
  intros counts_z counts_x counts' hamiltonian; split; intros HT;
    unfold compute_measure_hamiltonian; f_equal;
    apply for_each_ext; intros [term coeff] acc Hin;
    apply in_combine_l in Hin;
    rewrite Forall_forall in HT; specialize (HT term Hin);
    unfold hamiltonian_body; cbn [fst snd]; now rewrite HT.
Qed.

Lemma compute_measure_hamiltonian_unread_counts_witness :
  let hamiltonian :=
    mkSparsePauliOp
      [ Pauli.mk [true; false] [false; false];
        Pauli.mk [false; true] [true; false] ]
      [ C128.of_real (F64.Fin 1%Qc);
        C128.of_real (F64.Fin (Num.frac 1 2)) ] in
  compute_measure_hamiltonian [("00"%string, 3%Z)] [("11"%string, 2%Z)]
    hamiltonian
  = compute_measure_hamiltonian [("00"%string, 3%Z)] [] hamiltonian.
Proof.
  intros hamiltonian.
  apply (proj1 (@compute_measure_hamiltonian_unread_counts
                  [("00"%string, 3%Z)] [("11"%string, 2%Z)] [] hamiltonian)).
  repeat constructor.
Defined.
(** ** More on the task key *)

Section Alphabets.
Local Open Scope string_scope.

Lemma overb_append (al : list ascii) (s t : string) :
  overb al (s ++ t) = (overb al s && overb al t)%bool.
Proof. unfold overb; now rewrite chars_append, forallb_app. Qed.

Lemma overb_incl (al al' : list ascii) (s : string) :
  forallb (fun c => existsb (Ascii.eqb c) al') al = true ->
  overb al s = true -> overb al' s = true.
Proof.
  unfold overb; rewrite !forallb_forall; intros Hal Hs c Hc.
  specialize (Hs c Hc); apply existsb_exists in Hs as [c' [Hin Heq]].
  apply Ascii.eqb_eq in Heq; subst c'.
  now apply Hal.
Qed.

Lemma overb_absent (al : list ascii) (s : string) (c : ascii) :
  overb al s = true -> existsb (Ascii.eqb c) al = false ->
  ~ In c (list_ascii_of_string s).
Proof.
  unfold overb; rewrite forallb_forall; intros Hs Hc Hin.
  rewrite (Hs c Hin) in Hc; discriminate.
Qed.

Lemma string_of_uint_decimal (d : Decimal.uint) :
  overb decimal_alphabet (NilEmpty.string_of_uint d) = true.
Proof. induction d; simpl; auto. Qed.

Lemma str_int_decimal (z : Z) : overb decimal_alphabet (Py.str_int z) = true.
Proof.
  unfold Py.str_int; destruct (Z.to_int z) as [d|d]; simpl;
    apply string_of_uint_decimal.
Qed.

Lemma format_2f_decimal (v : Qc) :
  overb decimal_alphabet (Py.format_2f v) = true.
Proof.
  unfold Py.format_2f.
  rewrite !overb_append, !str_int_decimal.
  now destruct (Qnum v <? 0)%Z.
Qed.

Lemma join_items_tuple (l : list Z) :
  overb tuple_alphabet (Py.join_items l) = true.
Proof.
  assert (Hi : forall z, overb tuple_alphabet (Py.str_int z) = true)
    by (intros z; now apply (overb_incl decimal_alphabet), str_int_decimal).
  induction l as [|a [|b l] IH]; [reflexivity | apply Hi |].
  change (Py.join_items (a :: b :: l))
    with (Py.str_int a ++ ", " ++ Py.join_items (b :: l)).
  now rewrite !overb_append, Hi, IH.
Qed.

Lemma str_tuple_tuple (l : list Z) :
  overb tuple_alphabet (Py.str_tuple l) = true.
Proof.
  assert (Hi : forall z, overb tuple_alphabet (Py.str_int z) = true)
    by (intros z; now apply (overb_incl decimal_alphabet), str_int_decimal).
  unfold Py.str_tuple; destruct l as [|a [|b l]];
    rewrite !overb_append, ?Hi, ?join_items_tuple; reflexivity.
Qed.

Lemma params_part_alphabet (t : KitaevHamiltonianTask) :
  overb params_alphabet (params_part t) = true.
Proof.
  assert (Hd : forall s, overb decimal_alphabet s = true ->
                         overb params_alphabet s = true)
    by (intros s; now apply overb_incl).
  unfold params_part.
  now rewrite !overb_append, (Hd _ (str_int_decimal _)),
    !(Hd _ (format_2f_decimal _)).
Qed.

Lemma app_sep_first {A : Type} (c : A) (l l' r r' : list A) :
  ~ In c l -> ~ In c l' -> (l ++ c :: r = l' ++ c :: r')%list ->
  l = l' /\ r = r'.
Proof.
  revert l'; induction l as [|a l IH]; intros [|a' l'] Hl Hl' E;
    simpl in *.
  - now injection E as ->.
  - injection E as -> _; elim Hl'; now left.
  - injection E as -> _; elim Hl; now left.
  - injection E as -> E.
    destruct (IH l') as [-> ->]; auto.
Qed.

Lemma app_sep_last {A : Type} (c : A) (l l' a a' : list A) :
  ~ In c a -> ~ In c a' -> (l ++ c :: a = l' ++ c :: a')%list ->
  l = l' /\ a = a'.
Proof.
  intros Ha Ha' E.
  apply (f_equal (@rev A)) in E.
  rewrite !rev_app_distr in E; simpl in E; rewrite <- !app_assoc in E.
  simpl in E.
  apply app_sep_first in E; try (rewrite <- in_rev; assumption).
  destruct E as [E1 E2].
  apply (f_equal (@rev A)) in E1; apply (f_equal (@rev A)) in E2.
  rewrite !rev_involutive in E1, E2; auto.
Qed.

Lemma append_sep_first (c : ascii) (u u' r r' : string) :
  ~ In c (list_ascii_of_string u) -> ~ In c (list_ascii_of_string u') ->
  u ++ String c r = u' ++ String c r' -> u = u' /\ r = r'.
Proof.
  intros Hu Hu' E; apply (f_equal list_ascii_of_string) in E.
  rewrite !chars_append in E; simpl in E.
  apply app_sep_first in E; try assumption.
  destruct E as [E1 E2]; split; now apply chars_inj.
Qed.

Lemma append_sep_last (c : ascii) (u u' a a' : string) :
  ~ In c (list_ascii_of_string a) -> ~ In c (list_ascii_of_string a') ->
  u ++ String c a = u' ++ String c a' -> u = u' /\ a = a'.
Proof.
  intros Ha Ha' E; apply (f_equal list_ascii_of_string) in E.
  rewrite !chars_append in E; simpl in E.
  apply app_sep_last in E; try assumption.
  destruct E as [E1 E2]; split; now apply chars_inj.
Qed.

Lemma endswith_sep_append_sep (s : string) :
  Py.endswith_sep (s ++ "/") = true.
Proof.
  induction s as [|c s IH]; [reflexivity|].
  simpl; destruct (s ++ "/") eqn:E; [|exact IH].
  destruct s; discriminate.
Qed.

Lemma endswith_sep_form (s : string) :
  Py.endswith_sep s = true -> exists u, s = u ++ "/".
Proof.
  induction s as [|c s IH]; [discriminate|].
  simpl; destruct s as [|c' s'].
  - intros H; apply Ascii.eqb_eq in H; subst c; now exists "".
  - intros H; destruct (IH H) as [u ->]; now exists (String c u).
Qed.

Lemma prefix_of_plain (a : string) : ends_plain a -> prefix_of a = a ++ "/".
Proof.
  intros [Hne He]; unfold prefix_of; rewrite He.
  now replace (a =? "") with false by (symmetry; now apply String.eqb_neq).
Qed.

Lemma prefix_of_sep (a : string) : prefix_of (a ++ "/") = a ++ "/".
Proof.
  unfold prefix_of; now rewrite endswith_sep_append_sep, orb_true_r.
Qed.

Lemma prefix_of_cases (a : string) :
  (prefix_of a = a /\ (a = "" \/ exists u, a = u ++ "/"))
  \/ (prefix_of a = a ++ "/" /\ ends_plain a).
Proof.
  unfold prefix_of.
  destruct (String.eqb_spec a "") as [->|Hne]; [left; auto|].
  cbn [orb]; destruct (Py.endswith_sep a) eqn:He.
  - left; split; [reflexivity | right; now apply endswith_sep_form].
  - right; split; [reflexivity | now split].
Qed.

Lemma prefix_of_same_directory (a b : string) :
  prefix_of a = prefix_of b <-> same_directory a b.
Proof.
  split.
  - intros E.
    destruct (prefix_of_cases a) as [[Ea _] | [Ea Pa]];
      destruct (prefix_of_cases b) as [[Eb _] | [Eb Pb]];
      rewrite Ea, Eb in E.
    + now left.
    + right; right; now split.
    + right; left; now split.
    + left; now apply append_inv_tail in E.
  - intros [-> | [[Pa ->] | [Pb ->]]]; [reflexivity | |].
    + now rewrite prefix_of_sep, prefix_of_plain.
    + now rewrite prefix_of_sep, prefix_of_plain.
Qed.

Lemma filename_by_prefix (t : KitaevHamiltonianTask) (a : string) :
  filename (set_experiment_id t a)
  = (((prefix_of a ++ params_part t)
       ++ "/" ++ "shots" ++ Py.str_tuple (shots t))
      ++ "/" ++ Py.str_tuple (occupied_orbitals t)).
Proof. now rewrite filename_closed. Qed.

End Alphabets.

(** X17. Two tasks whose experiment ids differ only by one trailing
    separator have the same filename and the same hash. *)
Theorem filename_trailing_separator :
  forall (hash_key : string -> Z) (t : KitaevHamiltonianTask) (a : string),
    ends_plain a ->
    filename (set_experiment_id t (a ++ "/"))
    = filename (set_experiment_id t a)
    /\ task_hash hash_key (set_experiment_id t (a ++ "/"))
       = task_hash hash_key (set_experiment_id t a).
Proof.
  intros hash_key t a Ha.
  assert (E : filename (set_experiment_id t (a ++ "/"))
              = filename (set_experiment_id t a))
    by now rewrite !filename_by_prefix, prefix_of_sep, prefix_of_plain.
  split; [exact E | unfold task_hash; now rewrite E].
Qed.

Lemma filename_trailing_separator_witness :
  filename (set_experiment_id sample_task "runs/kitaev/")
  = filename (set_experiment_id sample_task "runs/kitaev")
  /\ task_hash sample_hash (set_experiment_id sample_task "runs/kitaev/")
     = task_hash sample_hash (set_experiment_id sample_task "runs/kitaev").
Proof.
  apply (@filename_trailing_separator sample_hash sample_task "runs/kitaev").
  split; [discriminate | reflexivity].
Defined.

Section Keys.
Local Open Scope string_scope.

Lemma startswith_sep_append (s t : string) :
  s <> "" -> Py.startswith_sep (s ++ t) = Py.startswith_sep s.
Proof. destruct s; [congruence | reflexivity]. Qed.

Lemma filename_nonempty (t : KitaevHamiltonianTask) : filename t <> "".
Proof.
  rewrite filename_closed.
  destruct ((prefix_of (experiment_id t) ++ params_part t)
              ++ "/" ++ "shots" ++ Py.str_tuple (shots t));
    discriminate.
Qed.

Lemma filename_startswith (t : KitaevHamiltonianTask) :
  Py.startswith_sep (filename t) = Py.startswith_sep (experiment_id t).
Proof.
  rewrite filename_closed, !append_assoc.
  unfold prefix_of.
  destruct (experiment_id t) as [|c r]; [reflexivity|].
  now destruct ((String c r =? "") || Py.endswith_sep (String c r))%bool.
Qed.

Lemma json_path_absolute (t : KitaevHamiltonianTask) (base_dir : string) :
  Py.startswith_sep (experiment_id t) = true ->
  json_path t base_dir = filename t ++ ".json".
Proof.
  intros Ha; unfold json_path, Py.path_join; cbn [fold_left].
  unfold Py.join_step.
  now rewrite startswith_sep_append, filename_startswith, Ha
    by apply filename_nonempty.
Qed.

Lemma json_path_relative (t : KitaevHamiltonianTask) (base_dir : string) :
  Py.startswith_sep (experiment_id t) = false ->
  json_path t base_dir = prefix_of base_dir ++ filename t ++ ".json".
Proof.
  intros Ha; unfold json_path, Py.path_join; cbn [fold_left].
  apply join_step_first.
  now rewrite startswith_sep_append, filename_startswith
    by apply filename_nonempty.
Qed.

Lemma params_part_inv (t t' : KitaevHamiltonianTask) :
  params_part t = params_part t' ->
  n_modes t = n_modes t'
  /\ Py.format_2f (tunneling t) = Py.format_2f (tunneling t')
  /\ Py.format_2f (superconducting t) = Py.format_2f (superconducting t')
  /\ Py.format_2f (chemical_potential t)
     = Py.format_2f (chemical_potential t').
Proof.
  unfold params_part; intros E; cbn [append] in E; injection E as E.
  apply append_sep_first in E;
    try (eapply overb_absent; [apply str_int_decimal | reflexivity]).
  destruct E as [En E]; apply str_int_inj in En.
  apply append_sep_first in E;
    try (eapply overb_absent; [apply format_2f_decimal | reflexivity]).
  destruct E as [Et E]; injection E as E.
  apply append_sep_first in E;
    try (eapply overb_absent; [apply format_2f_decimal | reflexivity]).
  destruct E as [Ed E]; injection E as E.
  auto.
Qed.

Lemma prefixed_params_inv (t t' : KitaevHamiltonianTask) :
  prefix_of (experiment_id t) ++ params_part t
  = prefix_of (experiment_id t') ++ params_part t' ->
  prefix_of (experiment_id t) = prefix_of (experiment_id t')
  /\ params_part t = params_part t'.
Proof.
  assert (Habs : forall x, ~ In "/"%char
                             (list_ascii_of_string (params_part x)))
    by (intros x; eapply overb_absent;
        [apply params_part_alphabet | reflexivity]).
  assert (Hform : forall a, prefix_of a = ""
                            \/ exists u, prefix_of a = u ++ String "/" "").
  { intros a; destruct (prefix_of_cases a) as [[-> [-> | [u ->]]] | [-> _]];
      [now left | right; now exists u | right; now exists a]. }
  intros E.
  destruct (Hform (experiment_id t)) as [Ep | [u Ep]];
    destruct (Hform (experiment_id t')) as [Ep' | [u' Ep']];
    rewrite Ep, Ep' in E |- *; rewrite ?append_assoc in E;
    cbn [append] in E.
  - now split.
  - exfalso; apply (Habs t); rewrite E, chars_append.
    apply in_or_app; right; now left.
  - exfalso; apply (Habs t'); rewrite <- E, chars_append.
    apply in_or_app; right; now left.
  - apply append_sep_last in E; try apply Habs.
    destruct E as [-> E]; now split.
Qed.

End Keys.

(** X18. [save] and [load] open [base_dir] joined with the filename and
    [".json"]; when the experiment id starts with the separator, the
    filename is absolute and [base_dir] is dropped from the path. *)
Theorem json_path_base_dir :
  forall (t : KitaevHamiltonianTask) (base_dir : string),
    (Py.startswith_sep (experiment_id t) = true ->
     json_path t base_dir = (filename t ++ ".json")%string)
    /\ (Py.startswith_sep (experiment_id t) = false ->
        json_path t base_dir
        = (prefix_of base_dir ++ filename t ++ ".json")%string).
Proof.
  intros t base_dir; split;
    [apply json_path_absolute | apply json_path_relative].
Qed.

Lemma json_path_base_dir_witness :
  json_path (set_experiment_id sample_task "/tmp/kitaev") "data/"
  = "/tmp/kitaev/n4t1.00_Delta0.50_mu0.00/shots(10000,)/(0, 1).json"%string
  /\ json_path sample_task "data/"
     = "data/kitaev/n4t1.00_Delta0.50_mu0.00/shots(10000,)/(0, 1).json"%string.
Proof.
  split.
  - apply (proj1 (json_path_base_dir
                    (set_experiment_id sample_task "/tmp/kitaev") "data/")).
    reflexivity.
  - apply (proj2 (json_path_base_dir sample_task "data/")).
    reflexivity.
Defined.

(** X19. Two tasks have the same filename exactly when their experiment
    ids are equal up to one trailing separator, their [n_modes], [shots]
    and [occupied_orbitals] are equal and their three float fields print
    alike at two decimals. *)
Theorem filename_equal_iff :
  forall t t' : KitaevHamiltonianTask,
    filename t = filename t'
    <-> same_directory (experiment_id t) (experiment_id t')
        /\ n_modes t = n_modes t'
        /\ Py.format_2f (tunneling t) = Py.format_2f (tunneling t')
        /\ Py.format_2f (superconducting t)
           = Py.format_2f (superconducting t')
        /\ Py.format_2f (chemical_potential t)
           = Py.format_2f (chemical_potential t')
        /\ shots t = shots t'
        /\ occupied_orbitals t = occupied_orbitals t'.
Proof.
  intros t t'; rewrite !filename_closed, <- prefix_of_same_directory; split.
  - intros E.
    change ("/" ++ ?x)%string with (String "/" x) in E.
    apply append_sep_last in E;
      try (eapply overb_absent; [apply str_tuple_tuple | reflexivity]).
    destruct E as [E Eo]; apply str_tuple_inj in Eo.
    apply append_sep_last in E;
      try (eapply overb_absent;
           [rewrite overb_append, str_tuple_tuple; reflexivity
           | reflexivity]).
    destruct E as [E Es]; apply append_inv_head, str_tuple_inj in Es.
    apply prefixed_params_inv in E as [Ep E].
    apply params_part_inv in E as [En [Et [Ed Em]]].
    repeat split; assumption.
  - intros [Ep [En [Et [Ed [Em [Es Eo]]]]]].
    unfold params_part; now rewrite Ep, En, Et, Ed, Em, Es, Eo.
Qed.

Lemma filename_equal_iff_witness :
  filename (set_experiment_id sample_task "kitaev/")
  = filename (set_tunneling sample_task double_1_004).
Proof.
  apply (proj2 (filename_equal_iff
                  (set_experiment_id sample_task "kitaev/")
                  (set_tunneling sample_task double_1_004))).
  split; [right; right; split; [split; [discriminate|]|]; reflexivity|].
  repeat split.
Defined.

(** X20. For two tasks whose experiment ids do not start with the
    separator, [save] and [load] use the same path exactly when the
    filenames are equal. *)
Theorem json_path_equal_iff :
  forall (t t' : KitaevHamiltonianTask) (base_dir : string),
    Py.startswith_sep (experiment_id t) = false ->
    Py.startswith_sep (experiment_id t') = false ->
    (json_path t base_dir = json_path t' base_dir
     <-> filename t = filename t').
Proof.
  intros t t' base_dir Ht Ht'.
  rewrite !json_path_relative by assumption; split.
  - intros E; apply append_inv_head in E.
    now apply append_inv_tail in E.
  - now intros ->.
Qed.

Lemma json_path_equal_iff_witness :
  json_path sample_task "data/"
  = json_path (set_chemical_potential sample_task double_0_004) "data/".
Proof.
  apply (proj2 (@json_path_equal_iff sample_task
                  (set_chemical_potential sample_task double_0_004) "data/"
                  ltac:(reflexivity) ltac:(reflexivity))).
  reflexivity.
Defined.

(** ** The edge-correlation measurement circuit *)

Lemma nth_error_last {A : Type} (d q : A) (rest : list A) :
  nth_error (q :: rest) (length rest) = Some (last (q :: rest) d).
Proof.
  revert q; induction rest as [|r rest IH]; intros q; [reflexivity|].
  change (nth_error (q :: r :: rest) (length (r :: rest)))
    with (nth_error (r :: rest) (length rest)).
  now rewrite IH.
Qed.

Lemma py_index_first {A : Type} (q : A) (rest : list A) :
  py_index (q :: rest) 0 = Ok q.
Proof.
  unfold py_index; cbn [length].
  replace ((0 <? 0) || (Z.of_nat (S (length rest)) <=? 0))%Z%bool with false
    by (symmetry; apply orb_false_iff; split;
        [reflexivity | apply Z.leb_gt; lia]).
  reflexivity.
Qed.

Lemma py_index_last {A : Type} (q : A) (rest : list A) :
  py_index (q :: rest) (-1) = Ok (last (q :: rest) q).
Proof.
  unfold py_index.
  change (-1 <? 0)%Z with true; cbv iota.
  set (n := Z.of_nat (length (q :: rest))).
  assert (Hn : (-1 + n)%Z = Z.of_nat (length rest))
    by (unfold n; cbn [length]; lia).
  rewrite Hn.
  replace ((Z.of_nat (length rest) <? 0)
           || (n <=? Z.of_nat (length rest)))%Z%bool with false
    by (symmetry; apply orb_false_iff; split;
        [apply Z.ltb_ge; lia
        | apply Z.leb_gt; unfold n; cbn [length]; lia]).
  now rewrite Nat2Z.id, (nth_error_last q).
Qed.

(** X21. On a circuit without qubits [measure_edge_correlation] raises
    [IndexError].  Otherwise it returns the circuit with the same qubits
    and the same instructions followed by exactly three more: the rotation
    on the first qubit, the rotation on the last qubit, and the
    measurement; on a one-qubit circuit both rotations act on that
    qubit. *)
Theorem measure_edge_correlation_rotations :
  forall (Q P : Type) (circuit : Circuit.t Q P),
    (Circuit.qubits circuit = [] ->
     measure_edge_correlation circuit = Raise IndexError)
    /\ (forall q rest,
          Circuit.qubits circuit = q :: rest ->
          measure_edge_correlation circuit
          = Ok (Circuit.mk (q :: rest)
                  (Circuit.data circuit
                   ++ [ Circuit.rx_half_pi q;
                        Circuit.rx_half_pi (last (q :: rest) q);
                        Circuit.measure_all ]))).
Proof.
  intros Q P circuit; split.
  - intros E; unfold measure_edge_correlation; now rewrite E.
  - intros q rest E; unfold measure_edge_correlation, Circuit.append.
    cbn [Circuit.qubits Circuit.data].
    rewrite E, py_index_first; cbn [bind].
    rewrite py_index_last; cbn [bind].
    now rewrite <- !app_assoc.
Qed.

Lemma measure_edge_correlation_rotations_witness :
  measure_edge_correlation
    (Circuit.mk [7] [Circuit.prior "prepare"%string])
  = Ok (Circuit.mk [7]
          [ Circuit.prior "prepare"%string; Circuit.rx_half_pi 7;
            Circuit.rx_half_pi 7; Circuit.measure_all ])
  /\ measure_edge_correlation
       (Circuit.mk (@nil nat) [Circuit.prior "prepare"%string])
     = Raise IndexError.
Proof.
  split.
  - apply (proj2 (measure_edge_correlation_rotations
                    (Circuit.mk [7] [Circuit.prior "prepare"%string]))).
    reflexivity.
  - apply (proj1 (measure_edge_correlation_rotations
                    (Circuit.mk (@nil nat)
                       [Circuit.prior "prepare"%string]))).
    reflexivity.
Defined.
